(** * swiftSet: a shallow embedding of [swiftSet.js]

    The development follows the source file top to bottom: the values a set
    can hold and how they turn into property keys, the backing object
    ([Object.create(null)]) with JavaScript's property enumeration order, the
    [Set] constructor and its prototype, the key-function stack behind the
    static operations, and [Set.process] with the operations built on it.

    Modelling decisions:
    - numbers are the integer-valued ones ([Z]), printed in plain decimal as
      [Number.prototype.toString] does below 10^21;
    - strings are sequences of 8-bit code units, ordered code unit by code
      unit, as [Array.prototype.sort] orders strings;
    - an object carries the string its [toString] method returns; key
      functions ([hashFn], [Set.pushUid]'s argument) are pure functions from
      the receiver ([this]) to the returned value. *)

From Stdlib Require Import ZArith NArith List String Ascii Bool Lia.
From Stdlib Require Import Permutation Sorted DecimalString.
Import ListNotations.
Open Scope string_scope.

(* ================================================================= *)
(** ** Values *)

#[warnings="-register-all"]
Inductive value : Type :=
| VUndefined
| VNull
| VBool (b : bool)
| VNum (n : Z)
| VStr (s : string)
| VObj (fields : list (string * value)) (toStr : option string)
| VWrapper (item : value) (toStr : option string).

(** [typeOf]: the class name out of [Object.prototype.toString]. *)
Definition typeOf (obj : value) : string :=
  match obj with
  | VUndefined => "Undefined"
  | VNull => "Null"
  | VBool _ => "Boolean"
  | VNum _ => "Number"
  | VStr _ => "String"
  | VObj _ _ => "Object"
  | VWrapper _ _ => "Object"
  end.

Definition types : list string :=
  ["Null"; "Undefined"; "Array"; "Boolean"; "Number"; "String"; "Object";
   "Function"; "Date"; "Error"; "RegExp"; "Arguments"; "Math"; "JSON"].

(** [codes[type]]: the position of [type] in [types], if any. *)
Fixpoint codes_from (i : nat) (ts : list string) (type : string) : option nat :=
  match ts with
  | [] => None
  | t :: ts' => if String.eqb t type then Some i else codes_from (S i) ts' type
  end.

Definition codes : string -> option nat := codes_from 0 types.

Definition encodeObjType (obj : value) : value :=
  let type := typeOf obj in
  match codes type with
  | Some code => VNum (Z.of_nat code)
  | None => VStr type
  end.

(** The string of an integer-valued number: its decimal digits.  This is
    [Number.prototype.toString] for the integers a number holds exactly
    (up to 2^53 in magnitude); statements about the string of a number
    carry that bound. *)
Definition number_to_string (n : Z) : string :=
  NilZero.string_of_int (Z.to_int n).

(** String conversion of everything but a wrapper with the default
    [toString]. *)
Definition own_to_string (v : value) : string :=
  match v with
  | VUndefined => "undefined"
  | VNull => "null"
  | VBool true => "true"
  | VBool false => "false"
  | VNum n => number_to_string n
  | VStr s => s
  | VObj _ (Some s) => s
  | VObj _ None => "[object Object]"
  | VWrapper _ (Some s) => s
  | VWrapper _ None => ""
  end.

(** String conversion, as performed by [+] with a string and by a property
    access [o[v]].  A [Wrapper] built without [toStr] answers
    ['(' + obj + ':' + encodeObjType(obj) + ')']. *)
Fixpoint to_string (v : value) : string :=
  match v with
  | VWrapper obj None =>
      "(" ++ to_string obj ++ ":" ++ own_to_string (encodeObjType obj) ++ ")"
  | _ => own_to_string v
  end.

(** Truthiness ([!!v]). *)
Definition truthy (v : value) : bool :=
  match v with
  | VUndefined | VNull => false
  | VBool b => b
  | VNum n => negb (n =? 0)%Z
  | VStr s => negb (String.eqb s "")
  | VObj _ _ | VWrapper _ _ => true
  end.

(** [Wrapper], [wrapObj], [isWrapped]. *)
Definition Wrapper (obj : value) (toStr : option string) : value :=
  VWrapper obj toStr.

Definition wrapObj (toStr : option string) : value -> value :=
  fun obj => Wrapper obj toStr.

Definition isWrapped (obj : value) : bool :=
  match obj with
  | VWrapper _ _ => true
  | _ => false
  end.

(** A key function: called as [f.call(item)], so a function of [this]. *)
Definition keyfn : Type := value -> value.

(** [function() { return this; }] *)
Definition identity : keyfn := fun this => this.

(** Reading a field, for key functions such as
    [function() { return this.id; }]. *)
Fixpoint lookup_field (fs : list (string * value)) (name : string) : value :=
  match fs with
  | [] => VUndefined
  | (n, v) :: fs' => if String.eqb n name then v else lookup_field fs' name
  end.

Definition field (name : string) : keyfn :=
  fun this =>
    match this with
    | VObj fs _ => lookup_field fs name
    | VWrapper obj _ => if String.eqb name "item" then obj else VUndefined
    | _ => VUndefined
    end.

(* ================================================================= *)
(** ** Objects used as maps

    [Object.create(null)]: string keys only, no inherited property.  The
    list keeps properties in creation order. *)

Module JsObject.
Section Obj.
Context {A : Type}.

Definition t : Type := list (string * A).

Definition create_null : t := [].

Fixpoint get (o : t) (k : string) : option A :=
  match o with
  | [] => None
  | (k', v) :: o' => if String.eqb k' k then Some v else get o' k
  end.

(** [o[k] = v]: overwrite in place, or create the property last. *)
Fixpoint set (o : t) (k : string) (v : A) : t :=
  match o with
  | [] => [(k, v)]
  | (k', v') :: o' =>
      if String.eqb k' k then (k', v) :: o' else (k', v') :: set o' k v
  end.

(** [delete o[k]] *)
Fixpoint delete (o : t) (k : string) : t :=
  match o with
  | [] => []
  | (k', v') :: o' =>
      if String.eqb k' k then o' else (k', v') :: delete o' k
  end.

(** An array index is a canonical numeric string below 2^32 - 1. *)
Definition array_index (k : string) : option N :=
  match NilZero.uint_of_string k with
  | Some d =>
      let n := N.of_uint d in
      if String.eqb (NilZero.string_of_uint (N.to_uint n)) k
         && (n <? 4294967295)%N
      then Some n else None
  | None => None
  end.

Definition is_index (p : string * A) : bool :=
  match array_index (fst p) with Some _ => true | None => false end.

Definition index_of (p : string * A) : N :=
  match array_index (fst p) with Some n => n | None => 0%N end.

Fixpoint insert_index (p : string * A) (l : list (string * A))
  : list (string * A) :=
  match l with
  | [] => [p]
  | q :: l' =>
      if (index_of p <=? index_of q)%N then p :: l
      else q :: insert_index p l'
  end.

Definition sort_index (l : list (string * A)) : list (string * A) :=
  fold_right insert_index [] l.

(** Property enumeration ([for (k in o)]): array indices in ascending
    numeric order, then the other keys in creation order. *)
Definition for_in (o : t) : list (string * A) :=
  (sort_index (filter is_index o)
     ++ filter (fun p => negb (is_index p)) o)%list.

Definition keys (o : t) : list string := map fst (for_in o).
End Obj.
Arguments t : clear implicits.
End JsObject.

(* ================================================================= *)
(** ** The [Set] constructor and its prototype *)

Record entry : Type := mkEntry { item : value; freq : Z }.

Record SetObj : Type := mkSet {
  hist : JsObject.t entry;
  hashFn : option keyfn;
  mutable : bool
}.

(** [this.uid]: the identity function, or the user's key retriever. *)
Definition Set_uid (this : SetObj) : keyfn :=
  match hashFn this with
  | None => identity
  | Some f => fun v => f v
  end.

Definition with_hist (this : SetObj) (h : JsObject.t entry) : SetObj :=
  mkSet h (hashFn this) (mutable this).

(** The body of [add]'s [forEach] callback. *)
Definition add_one (this : SetObj) (arg : value) : SetObj :=
  let key := to_string (Set_uid this arg) in
  match JsObject.get (hist this) key with
  | None => with_hist this (JsObject.set (hist this) key (mkEntry arg 1))
  | Some _ => this
  end.

Definition Set_add (this : SetObj) (args : list value) : SetObj :=
  fold_left add_one args this.

Definition remove_one (this : SetObj) (arg : value) : SetObj :=
  let key := to_string (Set_uid this arg) in
  match JsObject.get (hist this) key with
  | Some _ => with_hist this (JsObject.delete (hist this) key)
  | None => this
  end.

Definition Set_remove (this : SetObj) (args : list value) : SetObj :=
  fold_left remove_one args this.

Definition Set_addItems (this : SetObj) (a : list value) : SetObj :=
  Set_add this a.

Definition Set_removeItems (this : SetObj) (a : list value) : SetObj :=
  Set_remove this a.

Definition Set_clear (this : SetObj) (a : option (list value)) : SetObj :=
  let this' := with_hist this JsObject.create_null in
  match a with
  | Some a => Set_addItems this' a
  | None => this'
  end.

(** [new Set(a, hashFn)] *)
Definition new_Set (a : option (list value)) (hashFn : option keyfn) : SetObj :=
  let this := mkSet JsObject.create_null hashFn false in
  match a with
  | Some a => Set_add this a
  | None => this
  end.

Definition Set_mutable (this : SetObj) : SetObj :=
  mkSet (hist this) (hashFn this) true.

(** [each]: the action sees every item in enumeration order and stops the
    loop by answering [true]. *)
Fixpoint each_loop {S : Type} (action : value -> S -> S * bool)
    (props : list (string * entry)) (acc : S) : S :=
  match props with
  | [] => acc
  | (_, e) :: props' =>
      let (acc', stop) := action (item e) acc in
      if stop then acc' else each_loop action props' acc'
  end.

Definition Set_each {S : Type} (this : SetObj)
    (action : value -> S -> S * bool) (acc : S) : S :=
  each_loop action (JsObject.for_in (hist this)) acc.

Definition Set_map {B : Type} (this : SetObj) (action : value -> B) : list B :=
  Set_each this (fun it map => ((map ++ [action it])%list, false)) [].

Definition Set_items (this : SetObj) : list value :=
  Set_map this (fun it => it).

Definition Set_clone (this : SetObj) : SetObj :=
  new_Set (Some (Set_items this)) (hashFn this).

(** [Array.prototype.sort] without a comparator, on strings. *)
Fixpoint sort_insert (x : string) (l : list string) : list string :=
  match l with
  | [] => [x]
  | y :: l' => if String.leb x y then x :: l else y :: sort_insert x l'
  end.

Definition array_sort (l : list string) : list string :=
  fold_right sort_insert [] l.

(** [a.join('')] *)
Definition join_empty (l : list string) : string :=
  fold_right String.append "" l.

(** [s.slice(0, -1)] *)
Definition slice_0_m1 (s : string) : string :=
  String.substring 0 (String.length s - 1) s.

(** One element pushed by [keyify]: [key + ':' + encodeObjType(item) + ',']. *)
Definition keyify_pair (this : SetObj) (it : value) : string :=
  to_string (Set_uid this it) ++ ":" ++ to_string (encodeObjType it) ++ ",".

Definition Set_keyify (this : SetObj) : string :=
  let keys :=
    Set_each this (fun it keys => ((keys ++ [keyify_pair this it])%list, false)) [] in
  "{" ++ slice_0_m1 (join_empty (array_sort keys)) ++ "}".

Definition Set_toString (this : SetObj) : string := Set_keyify this.

Definition Set_unwrap (this : SetObj) : list value :=
  Set_map this
    (fun it => match it with VWrapper obj _ => obj | _ => it end).

Definition Set_size (this : SetObj) : nat := List.length (Set_items this).

(** [has]: [item = this.hist[key] && this.hist[key].item;
    return item && true || false]. *)
Definition Set_has (this : SetObj) (it : value) : bool :=
  let key := to_string (Set_uid this it) in
  match JsObject.get (hist this) key with
  | Some e => truthy (item e)
  | None => false
  end.

(* ================================================================= *)
(** ** The key-function stack of the static operations *)

Record UidState : Type := mkUid {
  uidList : list keyfn;
  uid : keyfn
}.

(** [uidList.push(uid = function() { return this; })] *)
Definition uid_init : UidState := mkUid [identity] identity.

(** The top of the stack, [uidList[uidList.length-1]]. *)
Definition uid_top (l : list keyfn) : keyfn := last l (fun _ => VUndefined).

Definition Set_pushUid (method : keyfn) (st : UidState) : keyfn * UidState :=
  (method, mkUid (uidList st ++ [method]) method).

(** [popUid] answers the popped method, or [null] ([None]). *)
Definition Set_popUid (st : UidState) : option keyfn * UidState :=
  let '(prev, l) :=
    if (1 <? List.length (uidList st))%nat
    then (Some (uid_top (uidList st)), removelast (uidList st))
    else (None, uidList st) in
  (prev, mkUid l (uid_top l)).

(* ================================================================= *)
(** ** [Set.process] and the operations built on it *)

(** First loop: [a.forEach]. *)
Definition process_a (uid : keyfn) (hist : JsObject.t entry) (it : value)
  : JsObject.t entry :=
  let ukey := to_string (uid it) in
  match JsObject.get hist ukey with
  | None => JsObject.set hist ukey (mkEntry it 1)
  | Some _ => hist
  end.

(** Second loop: merge [b] into the histogram. *)
Definition process_b (uid : keyfn) (hist : JsObject.t entry) (it : value)
  : JsObject.t entry :=
  let ukey := to_string (uid it) in
  match JsObject.get hist ukey with
  | Some e =>
      if (freq e =? 1)%Z then JsObject.set hist ukey (mkEntry (item e) 3)
      else hist
  | None => JsObject.set hist ukey (mkEntry it 2)
  end.

(** The histogram after both loops. *)
Definition process_hist (uid : keyfn) (a b : list value) : JsObject.t entry :=
  fold_left (process_b uid) b
    (fold_left (process_a uid) a JsObject.create_null).

(** The evaluator loop: [for (k in hist) if (evaluator(hist[k].freq))
    out.push(hist[k].item)]. *)
Fixpoint evaluate (evaluator : Z -> bool) (props : list (string * entry))
    (out : list value) : list value :=
  match props with
  | [] => out
  | (_, e) :: props' =>
      evaluate evaluator props'
        (if evaluator (freq e) then (out ++ [item e])%list else out)
  end.

(** What [Set.process] returns: the array [out], or the histogram when no
    evaluator is given. *)
Inductive processed : Type :=
| Out (out : list value)
| Hist (hist : JsObject.t entry).

Definition Set_process (st : UidState) (a b : list value)
    (evaluator : option (Z -> bool)) : processed :=
  let hist := process_hist (uid st) a b in
  match evaluator with
  | Some ev => Out (evaluate ev (JsObject.for_in hist) [])
  | None => Hist hist
  end.

(** The four evaluators. *)
Definition ev_union : Z -> bool := fun _ => true.
Definition ev_intersection : Z -> bool := fun freq => (freq =? 3)%Z.
Definition ev_difference : Z -> bool := fun freq => (freq <? 3)%Z.
Definition ev_complement : Z -> bool := fun freq => (freq =? 1)%Z.

Definition Set_union (st : UidState) (a b : list value) : processed :=
  Set_process st a b (Some ev_union).

Definition Set_intersection (st : UidState) (a b : list value) : processed :=
  Set_process st a b (Some ev_intersection).

Definition Set_difference (st : UidState) (a b : list value) : processed :=
  Set_process st a b (Some ev_difference).

Definition Set_complement (st : UidState) (a b : list value) : processed :=
  Set_process st a b (Some ev_complement).

(** [max] and [min] of [equals] range over numbers and [Infinity]. *)
Inductive number : Type :=
| Fin (z : Z)
| Infinity.

Definition Math_max (x : number) (y : Z) : number :=
  match x with
  | Fin z => Fin (Z.max z y)
  | Infinity => Infinity
  end.

Definition Math_min (x : number) (y : Z) : number :=
  match x with
  | Fin z => Fin (Z.min z y)
  | Infinity => Fin y
  end.

Definition is_3 (x : number) : bool :=
  match x with
  | Fin z => (z =? 3)%Z
  | Infinity => false
  end.

(** The loop shared by [Set.equals] and [Set.prototype.equals]. *)
Definition equals_loop (h : JsObject.t entry) : bool :=
  let '(max, min) :=
    fold_left
      (fun '(max, min) (p : string * entry) =>
         (Math_max max (freq (snd p)), Math_min min (freq (snd p))))
      (JsObject.for_in h) (Fin 0, Infinity) in
  is_3 min && is_3 max.

(** The histogram of a call without evaluator (such a call never answers
    an array). *)
Definition hist_of (r : processed) : JsObject.t entry :=
  match r with
  | Hist h => h
  | Out _ => JsObject.create_null
  end.

Definition Set_equals (st : UidState) (a b : list value) : bool :=
  equals_loop (hist_of (Set_process st a b None)).

(* ================================================================= *)
(** ** The prototype's set operations *)

(** The argument of a prototype operation: an array or a [Set]. *)
Inductive operand : Type :=
| Arr (a : list value)
| IsSet (s : SetObj).

(** [this.process], defined in the constructor.  It answers the result,
    the key-function stack afterwards and the receiver afterwards. *)
Definition this_process (st : UidState) (this : SetObj) (b : operand)
    (evaluator : option (Z -> bool)) : processed * UidState * SetObj :=
  let b := match b with IsSet s => Set_items s | Arr a => a end in
  let st1 := match hashFn this with
             | Some f => snd (Set_pushUid f st)
             | None => st
             end in
  let result := Set_process st1 (Set_items this) b evaluator in
  let st2 := match hashFn this with
             | Some _ => snd (Set_popUid st1)
             | None => st1
             end in
  let this' := match result with
               | Out out => if mutable this then Set_clear this (Some out)
                            else this
               | Hist _ => this
               end in
  (result, st2, this').

Definition proto_union (st : UidState) (this : SetObj) (b : operand) :=
  this_process st this b (Some ev_union).

Definition proto_intersection (st : UidState) (this : SetObj) (b : operand) :=
  this_process st this b (Some ev_intersection).

Definition proto_difference (st : UidState) (this : SetObj) (b : operand) :=
  this_process st this b (Some ev_difference).

Definition proto_complement (st : UidState) (this : SetObj) (b : operand) :=
  this_process st this b (Some ev_complement).

Definition proto_equals (st : UidState) (this : SetObj) (b : operand)
  : bool * UidState * SetObj :=
  let '(h, st', this') := this_process st this b None in
  (equals_loop (hist_of h), st', this').


(* ================================================================= *)
(** ** Vocabulary of the statements *)

(** The property key a key function gives a value. *)
Definition key_of (f : keyfn) (v : value) : string := to_string (f v).

(** The first element of a sequence with a given key. *)
Definition first_with (f : keyfn) (l : list value) (k : string) : option value :=
  find (fun x => String.eqb (key_of f x) k) l.

(** Both sequences have the same set of keys. *)
Definition same_keys (f : keyfn) (a b : list value) : Prop :=
  forall k, In k (map (key_of f) a) <-> In k (map (key_of f) b).

(** The items of a histogram whose frequency code is one of [cs], in
    enumeration order. *)
Definition with_codes (cs : list Z) (h : JsObject.t entry) : list value :=
  map (fun p => item (snd p))
    (filter (fun p => existsb (Z.eqb (freq (snd p))) cs) (JsObject.for_in h)).

(** The key function in force inside a prototype operation. *)
Definition active_key (st : UidState) (this : SetObj) : keyfn :=
  match hashFn this with
  | Some f => f
  | None => uid st
  end.

Definition operand_items (b : operand) : list value :=
  match b with
  | IsSet s => Set_items s
  | Arr a => a
  end.

(** States of the key-function stack that [Set.pushUid] and [Set.popUid]
    can produce. *)
Inductive reachable : UidState -> Prop :=
| reach_init : reachable uid_init
| reach_push method st :
    reachable st -> reachable (snd (Set_pushUid method st))
| reach_pop st :
    reachable st -> reachable (snd (Set_popUid st)).

(** [keyify]'s pair without the separator. *)
Definition pair_of (this : SetObj) (it : value) : string :=
  to_string (Set_uid this it) ++ ":" ++ to_string (encodeObjType it).

Definition str_le (s1 s2 : string) : Prop := String.leb s1 s2 = true.

(** The order of array indices among properties. *)
Definition index_le {A : Type} (p q : string * A) : Prop :=
  (JsObject.index_of p <= JsObject.index_of q)%N.


(** What the constructor and the methods keep true of a set: one entry
    per key, each entry under the key of its item, each count 1. *)
Definition consistent (this : SetObj) : Prop :=
  NoDup (map fst (hist this))
  /\ Forall (fun p => fst p = key_of (Set_uid this) (item (snd p))
                      /\ freq (snd p) = 1%Z) (hist this).

(** The keys of a sequence under a key function. *)
Definition keys_of (f : keyfn) (l : list value) : list string :=
  map (key_of f) l.

(** The elements of a list up to and including the first one that [stop]
    accepts. *)
Fixpoint upto {B : Type} (stop : B -> bool) (l : list B) : list B :=
  match l with
  | [] => []
  | x :: l' => if stop x then [x] else x :: upto stop l'
  end.

(** The array of a result of [Set.process] called with an evaluator. *)
Definition array_of (r : processed) : list value :=
  match r with
  | Out out => out
  | Hist _ => []
  end.

(** [n] calls of [Set.popUid]. *)
Fixpoint pops (n : nat) (st : UidState) : UidState :=
  match n with
  | O => st
  | S n' => pops n' (snd (Set_popUid st))
  end.

(* ================================================================= *)
(** ** Strings *)

Lemma append_assoc (s1 s2 s3 : string) : (s1 ++ s2) ++ s3 = s1 ++ s2 ++ s3.
Proof.
  induction s1 as [|c s1 IH]; simpl; [reflexivity | now rewrite IH].
Qed.

Lemma length_append (s1 s2 : string) :
  String.length (s1 ++ s2) = String.length s1 + String.length s2.
Proof.
  induction s1 as [|c s1 IH]; simpl; [reflexivity | now rewrite IH].
Qed.

Lemma substring_0_all (s : string) : String.substring 0 (String.length s) s = s.
Proof.
  induction s as [|c s IH]; simpl; [reflexivity | now rewrite IH].
Qed.

Lemma substring_0_append (s t : string) :
  String.substring 0 (String.length s) (s ++ t) = s.
Proof.
  induction s as [|c s IH]; simpl.
  - destruct t; reflexivity.
  - now rewrite IH.
Qed.

Lemma slice_0_m1_append (s : string) (c : ascii) :
  slice_0_m1 (s ++ String c "") = s.
Proof.
  unfold slice_0_m1. rewrite length_append. simpl.
  replace (String.length s + 1 - 1) with (String.length s) by lia.
  apply substring_0_append.
Qed.

Lemma append_inj_r (s1 s2 t1 t2 : string) :
  String.length t1 = String.length t2 ->
  s1 ++ t1 = s2 ++ t2 -> s1 = s2 /\ t1 = t2.
Proof.
  revert s2. induction s1 as [|c s1 IH]; intros [|d s2] Hlen H; simpl in *.
  - now split.
  - exfalso. apply (f_equal String.length) in H. simpl in H.
    rewrite length_append in H. lia.
  - exfalso. apply (f_equal String.length) in H. simpl in H.
    rewrite length_append in H. lia.
  - injection H as -> H. destruct (IH _ Hlen H) as [-> ->]. now split.
Qed.

Lemma ascii_compare_refl (c : ascii) : Ascii.compare c c = Eq.
Proof. unfold Ascii.compare. apply N.compare_refl. Qed.

Lemma string_compare_refl (s : string) : String.compare s s = Eq.
Proof.
  induction s as [|c s IH]; simpl; [reflexivity|].
  now rewrite ascii_compare_refl.
Qed.

Lemma str_le_refl (s : string) : str_le s s.
Proof. unfold str_le, String.leb. now rewrite string_compare_refl. Qed.

Lemma string_compare_lt_trans (s1 s2 s3 : string) :
  String.compare s1 s2 = Lt -> String.compare s2 s3 = Lt ->
  String.compare s1 s3 = Lt.
Proof.
  revert s2 s3.
  induction s1 as [|c1 s1 IH]; intros [|c2 s2] [|c3 s3]; simpl;
    try congruence.
  unfold Ascii.compare.
  destruct (N.compare_spec (N_of_ascii c1) (N_of_ascii c2)) as [E12|L12|G12];
    try discriminate;
    destruct (N.compare_spec (N_of_ascii c2) (N_of_ascii c3)) as [E23|L23|G23];
    try discriminate; intros H12 H23.
  - rewrite E12, E23, N.compare_refl. eauto.
  - rewrite E12. now rewrite (proj2 (N.compare_lt_iff _ _) L23).
  - rewrite <- E23. now rewrite (proj2 (N.compare_lt_iff _ _) L12).
  - now rewrite (proj2 (N.compare_lt_iff _ _) (N.lt_trans _ _ _ L12 L23)).
Qed.

Lemma str_le_trans (s1 s2 s3 : string) :
  str_le s1 s2 -> str_le s2 s3 -> str_le s1 s3.
Proof.
  unfold str_le, String.leb. intros H12 H23.
  destruct (String.compare s1 s2) eqn:E12; try discriminate;
    destruct (String.compare s2 s3) eqn:E23; try discriminate.
  - apply String.compare_eq_iff in E12, E23. subst.
    now rewrite string_compare_refl.
  - apply String.compare_eq_iff in E12. subst. now rewrite E23.
  - apply String.compare_eq_iff in E23. subst. now rewrite E12.
  - now rewrite (string_compare_lt_trans _ _ _ E12 E23).
Qed.

Lemma str_le_total (s1 s2 : string) : str_le s1 s2 \/ str_le s2 s1.
Proof. apply String.leb_total. Qed.

Lemma str_le_antisym (s1 s2 : string) : str_le s1 s2 -> str_le s2 s1 -> s1 = s2.
Proof. apply String.leb_antisym. Qed.

(* ================================================================= *)
(** ** [Array.prototype.sort] on strings *)

Lemma sort_insert_perm (x : string) (l : list string) :
  Permutation (x :: l) (sort_insert x l).
Proof.
  induction l as [|y l IH]; simpl; [apply Permutation_refl|].
  destruct (String.leb x y); [apply Permutation_refl|].
  eapply perm_trans; [apply perm_swap | now apply perm_skip].
Qed.

Lemma array_sort_perm (l : list string) : Permutation l (array_sort l).
Proof.
  induction l as [|x l IH]; simpl; [constructor|].
  eapply perm_trans; [apply perm_skip, IH | apply sort_insert_perm].
Qed.

Lemma sort_insert_sorted (x : string) (l : list string) :
  StronglySorted str_le l -> StronglySorted str_le (sort_insert x l).
Proof.
  induction 1 as [|y l Hs IH Hy]; simpl.
  - repeat constructor.
  - destruct (String.leb x y) eqn:E.
    + constructor; [now constructor|].
      constructor; [exact E|].
      eapply Forall_impl; [|exact Hy].
      intros z Hz. now apply str_le_trans with y.
    + constructor; [exact IH|].
      apply (Permutation_Forall (sort_insert_perm x l)).
      constructor; [|exact Hy].
      destruct (str_le_total x y) as [H|H]; [unfold str_le in H; congruence|exact H].
Qed.

Lemma array_sort_sorted (l : list string) : StronglySorted str_le (array_sort l).
Proof.
  induction l as [|x l IH]; simpl; [constructor | now apply sort_insert_sorted].
Qed.

Lemma sorted_perm_unique (l1 l2 : list string) :
  StronglySorted str_le l1 -> StronglySorted str_le l2 ->
  Permutation l1 l2 -> l1 = l2.
Proof.
  intros H1. revert l2.
  induction H1 as [|x l1 Hs1 IH Hx]; intros l2 H2 HP.
  - now apply Permutation_nil in HP.
  - destruct H2 as [|y l2 Hs2 Hy].
    + apply Permutation_sym, Permutation_nil in HP. discriminate.
    + assert (x = y) as <-.
      { assert (Hxy : str_le x y).
        { assert (Hin : In y (x :: l1))
            by (apply (Permutation_in _ (Permutation_sym HP)); now left).
          destruct Hin as [->|Hin]; [apply str_le_refl|].
          now apply (proj1 (Forall_forall _ _) Hx). }
        assert (Hyx : str_le y x).
        { assert (Hin : In x (y :: l2))
            by (apply (Permutation_in _ HP); now left).
          destruct Hin as [->|Hin]; [apply str_le_refl|].
          now apply (proj1 (Forall_forall _ _) Hy). }
        now apply str_le_antisym. }
      f_equal. apply IH; [exact Hs2|].
      now apply Permutation_cons_inv with x.
Qed.

Lemma array_sort_perm_eq (l1 l2 : list string) :
  Permutation l1 l2 -> array_sort l1 = array_sort l2.
Proof.
  intros HP. apply sorted_perm_unique; try apply array_sort_sorted.
  eapply perm_trans; [apply Permutation_sym, array_sort_perm|].
  eapply perm_trans; [exact HP | apply array_sort_perm].
Qed.

(** Joining strings that each end in a comma and dropping the last
    character is joining with commas. *)
Lemma join_commas (ps : list string) :
  slice_0_m1 (join_empty (map (fun p => p ++ ",") ps)) = String.concat "," ps.
Proof.
  destruct ps as [|p ps]; [reflexivity|].
  assert (H : forall q qs,
    join_empty (map (fun p => p ++ ",") (q :: qs))
    = String.concat "," (q :: qs) ++ ",").
  { intros q qs. revert q.
    induction qs as [|r qs IH]; intros q.
    - simpl. now rewrite append_assoc.
    - change (join_empty (map (fun p => p ++ ",") (q :: r :: qs)))
        with ((q ++ ",") ++ join_empty (map (fun p => p ++ ",") (r :: qs))).
      rewrite IH. simpl. now rewrite !append_assoc. }
  rewrite H. apply slice_0_m1_append.
Qed.

(* ================================================================= *)
(** ** Iteration *)

Lemma each_loop_push {B : Type} (g : value -> B)
    (props : list (string * entry)) (acc : list B) :
  each_loop (fun it acc => ((acc ++ [g it])%list, false)) props acc
  = (acc ++ map (fun p => g (item (snd p))) props)%list.
Proof.
  revert acc. induction props as [|[k e] props IH]; intros acc; simpl.
  - now rewrite app_nil_r.
  - rewrite IH. now rewrite <- app_assoc.
Qed.

Lemma Set_map_spec {B : Type} (this : SetObj) (g : value -> B) :
  Set_map this g
  = map (fun p => g (item (snd p))) (JsObject.for_in (hist this)).
Proof. unfold Set_map, Set_each. now rewrite each_loop_push. Qed.

Lemma Set_items_spec (this : SetObj) :
  Set_items this = map (fun p => item (snd p)) (JsObject.for_in (hist this)).
Proof. apply Set_map_spec. Qed.

Lemma Set_keyify_spec (this : SetObj) :
  Set_keyify this
  = "{" ++ slice_0_m1 (join_empty
             (array_sort (map (keyify_pair this) (Set_items this)))) ++ "}".
Proof.
  unfold Set_keyify, Set_each. rewrite each_loop_push. simpl.
  now rewrite Set_items_spec, map_map.
Qed.

Lemma keyify_pair_comma (this : SetObj) (it : value) :
  keyify_pair this it = pair_of this it ++ ",".
Proof. unfold keyify_pair, pair_of. now rewrite !append_assoc. Qed.

(* ================================================================= *)
(** ** [keyify] *)

Lemma keyify_sorted_pairs (this : SetObj) :
  exists ps : list string,
    Permutation ps (map (pair_of this) (Set_items this))
    /\ StronglySorted str_le (map (fun p => p ++ ",") ps)
    /\ Set_keyify this = "{" ++ String.concat "," ps ++ "}".
Proof.
  pose (raw := map (keyify_pair this) (Set_items this)).
  assert (Hraw : raw = map (fun p => p ++ ",") (map (pair_of this) (Set_items this))).
  { unfold raw. rewrite map_map. apply map_ext. apply keyify_pair_comma. }
  destruct (Permutation_map_inv (fun p => p ++ ",") (l1 := array_sort raw)
              (map (pair_of this) (Set_items this))) as [ps [Heq HP]].
  { rewrite <- Hraw. apply Permutation_sym, array_sort_perm. }
  exists ps. split; [now apply Permutation_sym|]. split.
  - rewrite <- Heq. apply array_sort_sorted.
  - rewrite Set_keyify_spec. fold raw. rewrite Heq. now rewrite join_commas.
Qed.

Lemma keyify_perm (s1 s2 : SetObj) :
  Permutation (map (pair_of s1) (Set_items s1))
              (map (pair_of s2) (Set_items s2)) ->
  Set_keyify s1 = Set_keyify s2.
Proof.
  intros HP. rewrite !Set_keyify_spec. do 4 f_equal.
  apply array_sort_perm_eq.
  assert (E : forall s, map (keyify_pair s) (Set_items s)
              = map (fun p => p ++ ",") (map (pair_of s) (Set_items s))).
  { intros s. rewrite map_map. apply map_ext. apply keyify_pair_comma. }
  rewrite !E. now apply Permutation_map.
Qed.

(** C1 (as the code has it): [keyify] answers the pairs [key:typeCode], one
    per entry, where the type code is that of the entry's item; the pair
    strings, each with its trailing comma, are sorted as whole strings and
    joined, and the last comma is dropped, all between braces.  A set
    without entries gives [{}].  Two sets with the same pairs, in whatever
    order, give the same string.  The set of [7,8,8,9,9,9] gives
    [{7:4,8:4,9:4}]. *)
Theorem keyify_type_pairs :
  (forall this : SetObj, exists ps : list string,
      Permutation ps (map (pair_of this) (Set_items this))
      /\ StronglySorted str_le (map (fun p => p ++ ",") ps)
      /\ List.length ps = Set_size this
      /\ Set_keyify this = "{" ++ String.concat "," ps ++ "}")
  /\ (forall this : SetObj, Set_keyify (Set_clear this None) = "{}")
  /\ (forall s1 s2 : SetObj,
        Permutation (map (pair_of s1) (Set_items s1))
                    (map (pair_of s2) (Set_items s2)) ->
        Set_keyify s1 = Set_keyify s2)
  /\ Set_keyify (new_Set (Some (map VNum [7; 8; 8; 9; 9; 9]%Z)) None)
     = "{7:4,8:4,9:4}".
Proof.
  split; [|split; [|split]].
  - intros this. destruct (keyify_sorted_pairs this) as [ps [HP [HS HK]]].
    exists ps. repeat split; try assumption.
    unfold Set_size. rewrite (Permutation_length HP). apply length_map.
  - intros this. reflexivity.
  - apply keyify_perm.
  - reflexivity.
Qed.

(** The same statement at two sets built in different orders. *)
Lemma keyify_type_pairs_witness :
  Set_keyify (new_Set (Some [VStr "b"; VStr "a"]) None)
  = Set_keyify (new_Set (Some [VStr "a"; VStr "b"; VStr "a"]) None).
Proof.
  apply (proj1 (proj2 (proj2 keyify_type_pairs))).
  vm_compute. apply perm_swap.
Defined.

(** C1 as stated fails: the second component of a pair is a type code,
    not a count, and the pairs are not ordered by their keys ([1] sorts
    before [10] as a key, yet [10:4,] sorts before [1:4,]). *)
Lemma keyify_counts_counterexample :
  Set_keyify (new_Set (Some (map VNum [7; 8; 8; 9; 9; 9]%Z)) None)
    <> "{7:1,8:2,9:3}"
  /\ Set_keyify (new_Set (Some [VNum 1; VNum 10]) None) = "{10:4,1:4}"
  /\ String.ltb "1" "10" = true.
Proof.
  split; [|split]; [|reflexivity|reflexivity].
  vm_compute. discriminate.
Qed.

(* ================================================================= *)
(** ** Facts about objects used as maps *)

Section ObjectFacts.
Context {A : Type}.
Implicit Types (o : JsObject.t A) (k : string) (v : A).

Lemma get_set_same o k v : JsObject.get (JsObject.set o k v) k = Some v.
Proof.
  induction o as [|[k' v'] o IH]; simpl.
  - now rewrite String.eqb_refl.
  - destruct (String.eqb k' k) eqn:E; simpl; rewrite E; [reflexivity|exact IH].
Qed.

Lemma get_set_other o k k' v :
  k <> k' -> JsObject.get (JsObject.set o k v) k' = JsObject.get o k'.
Proof.
  intros Hne. induction o as [|[k0 v0] o IH]; simpl.
  - destruct (String.eqb_spec k k'); [contradiction|reflexivity].
  - destruct (String.eqb_spec k0 k) as [->|Hk]; simpl.
    + destruct (String.eqb_spec k k'); [contradiction|reflexivity].
    + destruct (String.eqb_spec k0 k'); [reflexivity|exact IH].
Qed.

Lemma set_absent o k v :
  JsObject.get o k = None -> JsObject.set o k v = (o ++ [(k, v)])%list.
Proof.
  induction o as [|[k' v'] o IH]; simpl; [reflexivity|].
  destruct (String.eqb k' k); [discriminate|].
  intros H. now rewrite IH.
Qed.

Lemma set_keys_present o k v v' :
  JsObject.get o k = Some v' ->
  map fst (JsObject.set o k v) = map fst o.
Proof.
  induction o as [|[k0 v0] o IH]; simpl; [discriminate|].
  destruct (String.eqb k0 k) eqn:E; simpl; [reflexivity|].
  intros H. now rewrite IH.
Qed.

Lemma get_none_not_in o k :
  JsObject.get o k = None <-> ~ In k (map fst o).
Proof.
  induction o as [|[k0 v0] o IH]; simpl.
  - split; [intros _ []|reflexivity].
  - destruct (String.eqb_spec k0 k) as [->|Hk].
    + split; [discriminate|]. intros H. exfalso. apply H. now left.
    + rewrite IH. split.
      * intros H [E|Hin]; [now apply Hk|now apply H].
      * intros H Hin. apply H. now right.
Qed.

Lemma get_in o k v :
  NoDup (map fst o) -> (JsObject.get o k = Some v <-> In (k, v) o).
Proof.
  induction o as [|[k0 v0] o IH]; simpl; intros Hnd.
  - split; [discriminate|intros []].
  - inversion Hnd as [|? ? Hnotin Hnd']; subst.
    destruct (String.eqb_spec k0 k) as [->|Hk].
    + split.
      * intros H. injection H as ->. now left.
      * intros [H|H]; [now injection H as ->|].
        exfalso. apply Hnotin. now apply (in_map fst) in H.
    + rewrite (IH Hnd'). split.
      * intros H. now right.
      * intros [H|H]; [injection H as -> ->; contradiction|exact H].
Qed.

Lemma set_nodup o k v :
  NoDup (map fst o) -> NoDup (map fst (JsObject.set o k v)).
Proof.
  intros Hnd. destruct (JsObject.get o k) as [v'|] eqn:E.
  - now rewrite (set_keys_present _ _ _ _ E).
  - rewrite (set_absent _ _ _ E), map_app. simpl.
    apply NoDup_app; [exact Hnd|repeat constructor; intros []|].
    intros x Hx [<-|[]]. now apply get_none_not_in in E.
Qed.

Lemma insert_index_perm (p : string * A) l :
  Permutation (p :: l) (JsObject.insert_index p l).
Proof.
  induction l as [|q l IH]; simpl; [apply Permutation_refl|].
  destruct (N.leb _ _); [apply Permutation_refl|].
  eapply perm_trans; [apply perm_swap | now apply perm_skip].
Qed.

Lemma sort_index_perm (l : list (string * A)) :
  Permutation l (JsObject.sort_index l).
Proof.
  induction l as [|x l IH]; simpl; [constructor|].
  eapply perm_trans; [apply perm_skip, IH | apply insert_index_perm].
Qed.

Lemma filter_partition_perm {B : Type} (f : B -> bool) (l : list B) :
  Permutation l (filter f l ++ filter (fun x => negb (f x)) l).
Proof.
  induction l as [|x l IH]; simpl; [constructor|].
  destruct (f x); simpl.
  - now apply perm_skip.
  - now apply Permutation_cons_app.
Qed.

(** Enumeration visits every property exactly once. *)
Lemma for_in_perm o : Permutation o (JsObject.for_in o).
Proof.
  unfold JsObject.for_in.
  eapply perm_trans; [apply (filter_partition_perm JsObject.is_index)|].
  apply Permutation_app_tail, sort_index_perm.
Qed.

Lemma for_in_in o p : In p (JsObject.for_in o) <-> In p o.
Proof.
  split; apply Permutation_in;
    [apply Permutation_sym|]; apply for_in_perm.
Qed.

Lemma for_in_nodup o :
  NoDup (map fst o) -> NoDup (JsObject.keys o).
Proof.
  unfold JsObject.keys. intros H.
  eapply Permutation_NoDup; [|exact H].
  apply Permutation_map, for_in_perm.
Qed.
End ObjectFacts.

(* ================================================================= *)
(** ** The frequency table of [Set.process] *)

Section Table.
Variable f : keyfn.

Lemma first_with_none (l : list value) (k : string) :
  first_with f l k = None <-> ~ In k (map (key_of f) l).
Proof.
  unfold first_with. induction l as [|x l IH]; simpl.
  - split; [intros _ []|reflexivity].
  - destruct (String.eqb_spec (key_of f x) k) as [E|E].
    + split; [discriminate|]. intros H. exfalso. apply H. now left.
    + rewrite IH. split.
      * intros H [E'|Hin]; [now apply E|now apply H].
      * intros H Hin. apply H. now right.
Qed.

Lemma first_with_some (l : list value) (k : string) (x : value) :
  first_with f l k = Some x -> In x l /\ key_of f x = k.
Proof.
  unfold first_with. intros H. apply find_some in H.
  destruct H as [Hin E]. now apply String.eqb_eq in E.
Qed.

Lemma process_a_nodup (a : list value) (h : JsObject.t entry) :
  NoDup (map fst h) -> NoDup (map fst (fold_left (process_a f) a h)).
Proof.
  revert h. induction a as [|x a IH]; intros h Hnd; simpl; [exact Hnd|].
  apply IH. unfold process_a.
  destruct (JsObject.get h _); [exact Hnd|now apply set_nodup].
Qed.

Lemma process_b_nodup (b : list value) (h : JsObject.t entry) :
  NoDup (map fst h) -> NoDup (map fst (fold_left (process_b f) b h)).
Proof.
  revert h. induction b as [|x b IH]; intros h Hnd; simpl; [exact Hnd|].
  apply IH. unfold process_b.
  destruct (JsObject.get h _) as [e|]; [|now apply set_nodup].
  destruct (freq e =? 1)%Z; [now apply set_nodup|exact Hnd].
Qed.

(** The first loop enters a key once, with code 1 and the first item
    that has the key, and leaves earlier entries alone. *)
Lemma process_a_get (a : list value) (h : JsObject.t entry) (k : string) :
  JsObject.get (fold_left (process_a f) a h) k
  = match JsObject.get h k with
    | Some e => Some e
    | None => option_map (fun x => mkEntry x 1) (first_with f a k)
    end.
Proof.
  revert h. induction a as [|x a IH]; intros h; simpl.
  - now destruct (JsObject.get h k).
  - rewrite IH. unfold process_a, first_with. simpl.
    fold (key_of f x).
    destruct (String.eqb_spec (key_of f x) k) as [E|E].
    + rewrite E.
      destruct (JsObject.get h k) as [e|] eqn:G; [now rewrite G|].
      now rewrite get_set_same.
    + destruct (JsObject.get h (key_of f x)) as [e|] eqn:G;
        [reflexivity|].
      now rewrite (get_set_other _ _ _ _ E).
Qed.

(** The second loop turns code 1 into 3 for the keys of [b], enters the
    absent ones with code 2, and changes nothing else. *)
Lemma process_b_get (b : list value) (h : JsObject.t entry) (k : string) :
  JsObject.get (fold_left (process_b f) b h) k
  = match JsObject.get h k with
    | Some e =>
        if (freq e =? 1)%Z then
          match first_with f b k with
          | Some _ => Some (mkEntry (item e) 3)
          | None => Some e
          end
        else Some e
    | None => option_map (fun y => mkEntry y 2) (first_with f b k)
    end.
Proof.
  revert h. induction b as [|y b IH]; intros h; simpl.
  - destruct (JsObject.get h k) as [e|]; [|reflexivity].
    now destruct (freq e =? 1)%Z.
  - rewrite IH. unfold process_b, first_with. simpl.
    fold (key_of f y).
    destruct (String.eqb_spec (key_of f y) k) as [E|E].
    + rewrite E.
      destruct (JsObject.get h k) as [e|] eqn:G.
      * destruct (freq e =? 1)%Z eqn:F.
        -- rewrite get_set_same. reflexivity.
        -- now rewrite G, F.
      * rewrite get_set_same. reflexivity.
    + destruct (JsObject.get h (key_of f y)) as [e|] eqn:G.
      * destruct (freq e =? 1)%Z; [|reflexivity].
        now rewrite (get_set_other _ _ _ _ E).
      * now rewrite (get_set_other _ _ _ _ E).
Qed.

Lemma process_hist_get (a b : list value) (k : string) :
  JsObject.get (process_hist f a b) k
  = match first_with f a k, first_with f b k with
    | Some x, None => Some (mkEntry x 1)
    | Some x, Some _ => Some (mkEntry x 3)
    | None, Some y => Some (mkEntry y 2)
    | None, None => None
    end.
Proof.
  unfold process_hist. rewrite process_b_get, process_a_get. simpl.
  destruct (first_with f a k), (first_with f b k); reflexivity.
Qed.

Lemma process_hist_nodup (a b : list value) :
  NoDup (map fst (process_hist f a b)).
Proof. apply process_b_nodup, process_a_nodup. constructor. Qed.

(** Every entry of the table has code 1, 2 or 3 and sits under the key
    of its item. *)
Lemma process_hist_entry (a b : list value) (k : string) (e : entry) :
  In (k, e) (process_hist f a b) ->
  key_of f (item e) = k /\ (freq e = 1 \/ freq e = 2 \/ freq e = 3)%Z.
Proof.
  intros Hin. apply (get_in _ _ _ (process_hist_nodup a b)) in Hin.
  rewrite process_hist_get in Hin.
  destruct (first_with f a k) as [x|] eqn:Ea;
    destruct (first_with f b k) as [y|] eqn:Eb;
    try discriminate; injection Hin as <-; simpl.
  - apply first_with_some in Ea. split; [apply Ea|auto].
  - apply first_with_some in Ea. split; [apply Ea|auto].
  - apply first_with_some in Eb. split; [apply Eb|auto].
Qed.

Lemma first_with_same_keys (l l' : list value) (k : string) :
  (forall k, In k (map (key_of f) l) <-> In k (map (key_of f) l')) ->
  (first_with f l k = None <-> first_with f l' k = None).
Proof. intros H. rewrite !first_with_none. now rewrite H. Qed.

(** Only the key sets of the inputs decide the codes. *)
Lemma process_hist_codes (a a' b b' : list value) (k : string) :
  same_keys f a a' -> same_keys f b b' ->
  option_map freq (JsObject.get (process_hist f a b) k)
  = option_map freq (JsObject.get (process_hist f a' b') k).
Proof.
  intros Ha Hb. rewrite !process_hist_get.
  pose proof (first_with_same_keys a a' k Ha) as Ea.
  pose proof (first_with_same_keys b b' k Hb) as Eb.
  destruct (first_with f a k), (first_with f a' k),
    (first_with f b k), (first_with f b' k); try reflexivity;
    solve [ destruct Ea as [Ea1 Ea2];
            (discriminate (Ea1 eq_refl) || discriminate (Ea2 eq_refl))
          | destruct Eb as [Eb1 Eb2];
            (discriminate (Eb1 eq_refl) || discriminate (Eb2 eq_refl)) ].
Qed.
End Table.

(** C4: [Set.process] builds one table.  After the first loop every key of
    [a] is entered with code 1.  After the second loop a key of [a] that is
    also a key of [b] has code 3, a key of [b] alone has code 2, a key of
    [a] alone keeps code 1, and no other key is present.  Each key has one
    entry, whose item is the first element with that key, and only the key
    sets of [a] and [b], not the multiplicities, decide the codes. *)
Theorem process_frequency_codes (st : UidState) (a b : list value) :
  let f := uid st in
  let h := process_hist f a b in
  Set_process st a b None = Hist h
  /\ (forall k,
        JsObject.get (fold_left (process_a f) a JsObject.create_null) k
        = option_map (fun x => mkEntry x 1) (first_with f a k))
  /\ (forall k,
        JsObject.get h k
        = match first_with f a k, first_with f b k with
          | Some x, None => Some (mkEntry x 1)
          | Some x, Some _ => Some (mkEntry x 3)
          | None, Some y => Some (mkEntry y 2)
          | None, None => None
          end)
  /\ (forall k,
        (first_with f a k = None <-> ~ In k (map (key_of f) a))
        /\ (first_with f b k = None <-> ~ In k (map (key_of f) b)))
  /\ NoDup (JsObject.keys h)
  /\ (forall a' b' k,
        same_keys f a a' -> same_keys f b b' ->
        option_map freq (JsObject.get h k)
        = option_map freq (JsObject.get (process_hist f a' b') k)).
Proof.
  intros f h. repeat split.
  - intros k. now rewrite process_a_get.
  - intros k. apply process_hist_get.
  - now apply first_with_none.
  - now apply first_with_none.
  - now apply first_with_none.
  - now apply first_with_none.
  - apply for_in_nodup, process_hist_nodup.
  - intros a' b' k. apply process_hist_codes.
Qed.

(* ================================================================= *)
(** ** The operations as filters of the table *)

Lemma evaluate_filter (ev : Z -> bool) (props : list (string * entry))
    (out : list value) :
  evaluate ev props out
  = (out ++ map (fun p => item (snd p))
              (filter (fun p => ev (freq (snd p))) props))%list.
Proof.
  revert out. induction props as [|[k e] props IH]; intros out; simpl.
  - now rewrite app_nil_r.
  - rewrite IH. destruct (ev (freq e)); simpl; [|reflexivity].
    now rewrite <- app_assoc.
Qed.

(** On a table of [Set.process] an evaluator keeps exactly the entries
    whose code is in [cs], provided it agrees with [cs] on 1, 2 and 3. *)
Lemma evaluate_with_codes (f : keyfn) (a b : list value)
    (ev : Z -> bool) (cs : list Z) :
  (forall z, (z = 1 \/ z = 2 \/ z = 3)%Z -> ev z = existsb (Z.eqb z) cs) ->
  evaluate ev (JsObject.for_in (process_hist f a b)) []
  = with_codes cs (process_hist f a b).
Proof.
  intros Hev. unfold with_codes. rewrite evaluate_filter. simpl.
  f_equal. apply filter_ext_in. intros [k e] Hin. simpl.
  apply Hev. apply (proj1 (for_in_in _ _)) in Hin.
  now apply (process_hist_entry _ _ _ _ _ Hin).
Qed.

Lemma ev_union_codes z :
  (z = 1 \/ z = 2 \/ z = 3)%Z -> ev_union z = existsb (Z.eqb z) [1; 2; 3]%Z.
Proof. intros [-> | [-> | ->]]; reflexivity. Qed.

Lemma ev_intersection_codes z :
  (z = 1 \/ z = 2 \/ z = 3)%Z -> ev_intersection z = existsb (Z.eqb z) [3]%Z.
Proof. intros [-> | [-> | ->]]; reflexivity. Qed.

Lemma ev_difference_codes z :
  (z = 1 \/ z = 2 \/ z = 3)%Z -> ev_difference z = existsb (Z.eqb z) [1; 2]%Z.
Proof. intros [-> | [-> | ->]]; reflexivity. Qed.

Lemma ev_complement_codes z :
  (z = 1 \/ z = 2 \/ z = 3)%Z -> ev_complement z = existsb (Z.eqb z) [1]%Z.
Proof. intros [-> | [-> | ->]]; reflexivity. Qed.

Create HintDb evaluators.
#[local] Hint Resolve ev_union_codes ev_intersection_codes
  ev_difference_codes ev_complement_codes : evaluators.

(** The result of [this.process]: that of [Set.process] on the receiver's
    items and the operand's, under the receiver's key function if it has
    one and the active static one otherwise. *)
Lemma this_process_result (st : UidState) (this : SetObj) (o : operand)
    (ev : option (Z -> bool)) :
  let h := process_hist (active_key st this) (Set_items this)
             (operand_items o) in
  fst (fst (this_process st this o ev))
  = match ev with
    | Some ev => Out (evaluate ev (JsObject.for_in h) [])
    | None => Hist h
    end.
Proof.
  unfold this_process, active_key, Set_process, operand_items.
  destruct o, (hashFn this); reflexivity.
Qed.

(** C5: each operation keeps the entries of the shared table with the
    codes it stands for: union 1, 2 and 3 (every entry), intersection 3,
    difference 1 and 2, complement 1; the static functions on the table of
    their two arrays, the prototype methods on the table of the receiver's
    items and the operand's. *)
Theorem operations_filter_by_code (st : UidState) (a b : list value)
    (this : SetObj) (o : operand) :
  let h := process_hist (uid st) a b in
  let h' := process_hist (active_key st this) (Set_items this)
              (operand_items o) in
  (Set_union st a b = Out (with_codes [1; 2; 3]%Z h)
   /\ Set_intersection st a b = Out (with_codes [3]%Z h)
   /\ Set_difference st a b = Out (with_codes [1; 2]%Z h)
   /\ Set_complement st a b = Out (with_codes [1]%Z h))
  /\ (fst (fst (proto_union st this o)) = Out (with_codes [1; 2; 3]%Z h')
      /\ fst (fst (proto_intersection st this o)) = Out (with_codes [3]%Z h')
      /\ fst (fst (proto_difference st this o)) = Out (with_codes [1; 2]%Z h')
      /\ fst (fst (proto_complement st this o)) = Out (with_codes [1]%Z h'))
  /\ with_codes [1; 2; 3]%Z h
     = map (fun p => item (snd p)) (JsObject.for_in h).
Proof.
  intros h h'. split; [|split].
  - unfold Set_union, Set_intersection, Set_difference, Set_complement,
      Set_process.
    repeat split; f_equal; apply evaluate_with_codes;
      auto with evaluators.
  - unfold proto_union, proto_intersection, proto_difference,
      proto_complement.
    rewrite !this_process_result.
    repeat split; f_equal; apply evaluate_with_codes;
      auto with evaluators.
  - unfold with_codes. f_equal.
    rewrite <- (filter_ext_in (fun _ => true)).
    + clear. induction (JsObject.for_in h) as [|p l IH]; simpl; congruence.
    + intros [k e] Hin. apply (proj1 (for_in_in _ _)) in Hin.
      destruct (process_hist_entry _ _ _ _ _ Hin) as [_ [E|[E|E]]];
        simpl; rewrite E; reflexivity.
Qed.

(** C6 (as the code has it): on the arrays of the scenario, intersection
    answers [[2]], difference [[1,3]] and complement, the items of the
    first array that are not in the second, [[1]]. *)
Theorem scenario_operations :
  Set_intersection uid_init (map VNum [1; 1; 2]%Z) (map VNum [2; 2; 3]%Z)
    = Out [VNum 2]
  /\ Set_difference uid_init (map VNum [1; 1; 2]%Z) (map VNum [2; 3; 3]%Z)
    = Out [VNum 1; VNum 3]
  /\ Set_complement uid_init (map VNum [1; 2; 2]%Z) (map VNum [2; 2; 3]%Z)
    = Out [VNum 1].
Proof. repeat split. Qed.

(** C6 as stated fails on its third call: the complement is not [[3]]. *)
Lemma scenario_complement_counterexample :
  Set_complement uid_init (map VNum [1; 2; 2]%Z) (map VNum [2; 2; 3]%Z)
    <> Out [VNum 3].
Proof. vm_compute. discriminate. Qed.

(* ================================================================= *)
(** ** [equals] *)

Lemma equals_fold_split (l : list (string * entry)) (mx mn : number) :
  fold_left
    (fun '(max, min) (p : string * entry) =>
       (Math_max max (freq (snd p)), Math_min min (freq (snd p))))
    l (mx, mn)
  = (fold_left Math_max (map (fun p => freq (snd p)) l) mx,
     fold_left Math_min (map (fun p => freq (snd p)) l) mn).
Proof.
  revert mx mn. induction l as [|p l IH]; intros mx mn; simpl;
    [reflexivity | apply IH].
Qed.

Lemma max_is_3 (zs : list Z) (M : Z) :
  is_3 (fold_left Math_max zs (Fin M)) = true
  <-> (M <= 3)%Z /\ Forall (fun z => (z <= 3)%Z) zs /\ (M = 3%Z \/ In 3%Z zs).
Proof.
  revert M. induction zs as [|z zs IH]; intros M; simpl.
  - rewrite Z.eqb_eq. split.
    + intros ->. repeat split; auto with zarith.
    + intros [_ [_ [H|[]]]]. exact H.
  - rewrite IH. split.
    + intros [H1 [H2 H3]]. split; [lia|]. split.
      * constructor; [lia|exact H2].
      * destruct H3 as [H3|H3]; [|now right; right].
        destruct (Z.eq_dec M 3); [now left|right; left; lia].
    + intros [H1 [H2 H3]]. inversion H2; subst. split; [lia|].
      split; [assumption|].
      destruct H3 as [H3|[H3|H3]]; [left; lia|left; lia|now right].
Qed.

Lemma min_is_3 (zs : list Z) (m : number) :
  is_3 (fold_left Math_min zs m) = true
  <-> match m with Fin z => (3 <= z)%Z | Infinity => True end
      /\ Forall (fun z => (3 <= z)%Z) zs
      /\ (m = Fin 3 \/ In 3%Z zs).
Proof.
  revert m. induction zs as [|z zs IH]; intros m; simpl.
  - destruct m as [y|]; simpl.
    + rewrite Z.eqb_eq. split.
      * intros ->. repeat split; auto with zarith.
      * intros [_ [_ [H|[]]]]. now injection H.
    + split; [discriminate|]. intros [_ [_ [H|[]]]]. discriminate.
  - rewrite IH. destruct m as [y|]; simpl.
    + split.
      * intros [H1 [H2 H3]]. split; [lia|]. split.
        -- constructor; [lia|exact H2].
        -- destruct H3 as [H3|H3]; [|now right; right].
           injection H3 as H3.
           destruct (Z.eq_dec y 3) as [->|]; [now left|right; left; lia].
      * intros [H1 [H2 H3]]. inversion H2; subst. split; [lia|].
        split; [assumption|].
        destruct H3 as [H3|[H3|H3]];
          [injection H3 as ->; left; f_equal; lia
          |left; f_equal; lia|now right].
    + split.
      * intros [H1 [H2 H3]]. split; [exact I|]. split.
        -- constructor; assumption.
        -- destruct H3 as [H3|H3]; [injection H3 as ->; right; now left
                                   |right; now right].
      * intros [_ [H2 H3]]. inversion H2; subst. split; [assumption|].
        split; [assumption|].
        destruct H3 as [H3|[H3|H3]];
          [discriminate|left; now f_equal|now right].
Qed.

(** The loop answers [true] exactly on a table that has an entry and
    whose entries all have code 3. *)
Lemma equals_loop_spec (h : JsObject.t entry) :
  equals_loop h = true
  <-> JsObject.for_in h <> []
      /\ Forall (fun p => freq (snd p) = 3%Z) (JsObject.for_in h).
Proof.
  unfold equals_loop. rewrite equals_fold_split.
  rewrite andb_true_iff, max_is_3, min_is_3.
  set (l := JsObject.for_in h).
  split.
  - intros [[_ [Hge [Habs|Hin]]] [_ [Hle _]]]; [discriminate|].
    split.
    + intros E. rewrite E in Hin. exact Hin.
    + rewrite Forall_map in Hge, Hle. rewrite Forall_forall in *.
      intros p Hp. specialize (Hge p Hp). specialize (Hle p Hp). lia.
  - intros [Hne Hall].
    assert (Hin : In 3%Z (map (fun p => freq (snd p)) l)).
    { destruct l as [|p l']; [contradiction|].
      inversion Hall; subst. left. assumption. }
    repeat split; auto with zarith;
      apply Forall_map; eapply Forall_impl; try exact Hall;
      simpl; intros; lia.
Qed.

Lemma process_hist_nonempty (f : keyfn) (a b : list value) :
  JsObject.for_in (process_hist f a b) <> [] <-> a <> [] \/ b <> [].
Proof.
  split.
  - intros H. destruct a as [|x a]; [|left; discriminate].
    destruct b as [|y b]; [|right; discriminate].
    now contradiction H.
  - intros H E.
    assert (Hk : exists k, first_with f a k <> None \/ first_with f b k <> None).
    { destruct H as [H|H].
      - destruct a as [|x a]; [contradiction|]. exists (key_of f x). left.
        unfold first_with. simpl. now rewrite String.eqb_refl.
      - destruct b as [|y b]; [contradiction|]. exists (key_of f y). right.
        unfold first_with. simpl. now rewrite String.eqb_refl. }
    destruct Hk as [k Hk].
    assert (Hg : JsObject.get (process_hist f a b) k <> None).
    { rewrite process_hist_get.
      destruct (first_with f a k), (first_with f b k);
        try discriminate. destruct Hk; contradiction. }
    destruct (JsObject.get (process_hist f a b) k) as [e|] eqn:G;
      [|contradiction].
    apply (get_in _ _ _ (process_hist_nodup f a b)) in G.
    apply for_in_in in G. rewrite E in G. exact G.
Qed.

Lemma process_hist_all_3 (f : keyfn) (a b : list value) :
  Forall (fun p => freq (snd p) = 3%Z) (JsObject.for_in (process_hist f a b))
  <-> same_keys f a b.
Proof.
  rewrite Forall_forall. split.
  - intros Hall k.
    assert (H : first_with f a k = None <-> first_with f b k = None).
    { pose proof (process_hist_get f a b k) as G.
      destruct (first_with f a k) as [x|] eqn:Ea;
        destruct (first_with f b k) as [y|] eqn:Eb;
        try (split; congruence);
        apply (get_in _ _ _ (process_hist_nodup f a b)) in G;
        apply for_in_in in G; apply Hall in G; discriminate. }
    rewrite !first_with_none in H.
    destruct (in_dec string_dec k (map (key_of f) a)) as [Ia|Ia];
      destruct (in_dec string_dec k (map (key_of f) b)) as [Ib|Ib];
      try tauto.
  - intros Hsame [k e] Hin. simpl.
    apply (proj1 (for_in_in _ _)) in Hin.
    apply (get_in _ _ _ (process_hist_nodup f a b)) in Hin.
    rewrite process_hist_get in Hin.
    pose proof (first_with_same_keys f a b k Hsame) as [H1 H2].
    destruct (first_with f a k) as [x|] eqn:Ea;
      destruct (first_with f b k) as [y|] eqn:Eb;
      try discriminate.
    + now injection Hin as <-.
    + discriminate (H2 eq_refl).
    + discriminate (H1 eq_refl).
Qed.

Lemma equals_hist_spec (f : keyfn) (a b : list value) :
  equals_loop (process_hist f a b) = true
  <-> (a <> [] \/ b <> []) /\ same_keys f a b.
Proof.
  now rewrite equals_loop_spec, process_hist_nonempty, process_hist_all_3.
Qed.

Lemma same_keys_sym (f : keyfn) (a b : list value) :
  same_keys f a b -> same_keys f b a.
Proof. intros H k. now rewrite (H k). Qed.

Lemma equals_hist_sym (f : keyfn) (a b : list value) :
  equals_loop (process_hist f a b) = equals_loop (process_hist f b a).
Proof.
  apply eq_true_iff_eq. rewrite !equals_hist_spec.
  split; intros [H1 H2]; (split; [tauto|now apply same_keys_sym]).
Qed.

Lemma proto_equals_result (st : UidState) (this : SetObj) (o : operand) :
  fst (fst (proto_equals st this o))
  = equals_loop
      (process_hist (active_key st this) (Set_items this) (operand_items o)).
Proof.
  unfold proto_equals.
  pose proof (this_process_result st this o None) as H.
  destruct (this_process st this o None) as [[r st'] this'].
  simpl in *. now rewrite H.
Qed.

(** C3 (as the code has it): when the two operands are not both empty,
    [equals] answers [true] exactly when every entry of the combined table
    has code 3, that is when both have the same set of keys under the key
    function in force; this holds for [Set.equals] and for the prototype
    method.  [equals] is symmetric, and reflexive on what is not empty.
    (No relation to [keyify] is stated: [keyify] also encodes the type of
    each item.) *)
Theorem equals_same_keys (st : UidState) (a b : list value)
    (this other : SetObj) (o : operand) :
  (a <> [] \/ b <> [] ->
     (Set_equals st a b = true <-> same_keys (uid st) a b)
     /\ (Set_equals st a b = true <->
         Forall (fun p => freq (snd p) = 3%Z)
           (JsObject.for_in (process_hist (uid st) a b))))
  /\ (Set_items this <> [] \/ operand_items o <> [] ->
        (fst (fst (proto_equals st this o)) = true <->
         same_keys (active_key st this) (Set_items this) (operand_items o)))
  /\ Set_equals st a b = Set_equals st b a
  /\ (hashFn this = hashFn other ->
        fst (fst (proto_equals st this (IsSet other)))
        = fst (fst (proto_equals st other (IsSet this))))
  /\ (a <> [] -> Set_equals st a a = true)
  /\ (Set_items this <> [] ->
        fst (fst (proto_equals st this (IsSet this))) = true).
Proof.
  rewrite !proto_equals_result. unfold Set_equals, Set_process, hist_of.
  split; [|split; [|split; [|split; [|split]]]].
  - intros Hne. split.
    + rewrite equals_hist_spec. tauto.
    + rewrite equals_loop_spec, process_hist_nonempty. tauto.
  - intros Hne. rewrite equals_hist_spec. tauto.
  - apply equals_hist_sym.
  - intros Hh. simpl. unfold active_key. rewrite Hh. apply equals_hist_sym.
  - intros Hne. apply equals_hist_spec. split; [now left|].
    intros k. reflexivity.
  - intros Hne. apply equals_hist_spec. split; [now left|].
    intros k. reflexivity.
Qed.

(** [Set.equals([1, 1, 2], [1, 2, 2])] from the source's comment. *)
Lemma equals_same_keys_witness :
  Set_equals uid_init (map VNum [1; 1; 2]%Z) (map VNum [1; 2; 2]%Z) = true.
Proof.
  refine (proj2 (proj1 (proj1 (equals_same_keys uid_init
                    (map VNum [1; 1; 2]%Z) (map VNum [1; 2; 2]%Z)
                    (new_Set None None) (new_Set None None) (Arr [])) _)) _).
  - left. discriminate.
  - intros k. simpl. tauto.
Defined.

(** C3 as stated fails: the sets of [2] and of ["2"] are equal, yet their
    [keyify] strings differ. *)
Lemma equals_keyify_counterexample :
  fst (fst (proto_equals uid_init (new_Set (Some [VNum 2]) None)
              (IsSet (new_Set (Some [VStr "2"]) None)))) = true
  /\ Set_keyify (new_Set (Some [VNum 2]) None)
     <> Set_keyify (new_Set (Some [VStr "2"]) None).
Proof. split; [reflexivity|]. vm_compute. discriminate. Qed.

(** On two empty operands the loop of [equals] never runs, [min] stays
    [Infinity] and the answer is [false]. *)
Example equals_of_empty_sets :
  Set_equals uid_init [] [] = false
  /\ fst (fst (proto_equals uid_init (new_Set None None)
                 (IsSet (new_Set None None)))) = false.
Proof. split; reflexivity. Qed.

(* ================================================================= *)
(** ** [add] and [has] *)

Lemma with_hist_same (this : SetObj) : with_hist this (hist this) = this.
Proof. now destruct this. Qed.

(** [add]'s callback is the first loop of [Set.process] on the set's own
    histogram and key function. *)
Lemma add_one_process_a (this : SetObj) (v : value) :
  add_one this v
  = with_hist this (process_a (Set_uid this) (hist this) v).
Proof.
  unfold add_one, process_a.
  destruct (JsObject.get (hist this) _); [now rewrite with_hist_same|reflexivity].
Qed.

Lemma Set_add_process_a (this : SetObj) (args : list value) :
  Set_add this args
  = with_hist this (fold_left (process_a (Set_uid this)) args (hist this)).
Proof.
  unfold Set_add. revert this.
  induction args as [|v args IH]; intros this; simpl.
  - now rewrite with_hist_same.
  - rewrite IH, add_one_process_a. reflexivity.
Qed.

Lemma Set_add_get (this : SetObj) (args : list value) (k : string) :
  JsObject.get (hist (Set_add this args)) k
  = match JsObject.get (hist this) k with
    | Some e => Some e
    | None => option_map (fun x => mkEntry x 1) (first_with (Set_uid this) args k)
    end.
Proof. rewrite Set_add_process_a. simpl. apply process_a_get. Qed.

(** C2 (as the code has it): [add] takes its arguments in order; a value
    whose key is absent gets a new entry, created last, with count 1 and
    the value as item; a value whose key is present changes nothing: the
    entry keeps its item and its count.  Every argument has an entry
    afterwards, and the receiver keeps its key function and mutability. *)
Theorem add_keeps_first_item (this : SetObj) (args : list value) :
  let f := Set_uid this in
  (forall v, JsObject.get (hist this) (key_of f v) = None ->
     hist (Set_add this [v])
     = (hist this ++ [(key_of f v, mkEntry v 1)])%list)
  /\ (forall v e, JsObject.get (hist this) (key_of f v) = Some e ->
        Set_add this [v] = this)
  /\ (forall v vs, Set_add this (v :: vs) = Set_add (Set_add this [v]) vs)
  /\ (forall k,
        JsObject.get (hist (Set_add this args)) k
        = match JsObject.get (hist this) k with
          | Some e => Some e
          | None => option_map (fun x => mkEntry x 1) (first_with f args k)
          end)
  /\ (forall v, In v args ->
        JsObject.get (hist (Set_add this args)) (key_of f v) <> None)
  /\ hashFn (Set_add this args) = hashFn this
  /\ mutable (Set_add this args) = mutable this.
Proof.
  intros f. split; [|split; [|split; [|split; [|split; [|split]]]]].
  - intros v Hv. simpl. unfold add_one. fold f. fold (key_of f v).
    rewrite Hv. simpl. now apply set_absent.
  - intros v e Hv. simpl. unfold add_one. fold f. fold (key_of f v).
    now rewrite Hv.
  - reflexivity.
  - intros k. apply Set_add_get.
  - intros v Hin. subst f. rewrite Set_add_get.
    set (f := Set_uid this).
    destruct (JsObject.get (hist this) (key_of f v)); [discriminate|].
    destruct (first_with f args (key_of f v)) eqn:E; [discriminate|].
    apply first_with_none in E. exfalso. apply E. now apply in_map.
  - now rewrite Set_add_process_a.
  - now rewrite Set_add_process_a.
Qed.

(** Adding [1] to the set of [1]: nothing changes. *)
Lemma add_keeps_first_item_witness :
  Set_add (new_Set (Some [VNum 1]) None) [VNum 1]
  = new_Set (Some [VNum 1]) None.
Proof.
  apply (proj1 (proj2 (add_keeps_first_item
                         (new_Set (Some [VNum 1]) None) []))
           (VNum 1) (mkEntry (VNum 1) 1)).
  reflexivity.
Defined.

(** C2 as stated fails: adding a value whose key is present does not
    increment the count, which stays 1. *)
Lemma add_count_counterexample :
  JsObject.get (hist (new_Set (Some [VNum 1]) None)) "1"
    = Some (mkEntry (VNum 1) 1)
  /\ JsObject.get (hist (Set_add (new_Set (Some [VNum 1]) None) [VNum 1])) "1"
    = Some (mkEntry (VNum 1) 1)
  /\ option_map freq
       (JsObject.get
          (hist (Set_add (new_Set (Some [VNum 1]) None) [VNum 1])) "1")
     <> option_map (fun e => (freq e + 1)%Z)
          (JsObject.get (hist (new_Set (Some [VNum 1]) None)) "1").
Proof. repeat split. vm_compute. discriminate. Qed.

(** [has] answers the truthiness of the item stored under the key. *)
Lemma Set_has_spec (this : SetObj) (v : value) :
  Set_has this v = true
  <-> exists e, JsObject.get (hist this) (key_of (Set_uid this) v) = Some e
                /\ truthy (item e) = true.
Proof.
  unfold Set_has. fold (key_of (Set_uid this) v).
  destruct (JsObject.get (hist this) _) as [e|].
  - split; [intros H; now exists e|].
    intros [e' [E H]]. now injection E as <-.
  - split; [discriminate|]. intros [e' [E _]]. discriminate.
Qed.

(** C7 at its failing inputs: after [add(0)], [add('')] or [add(false)]
    the entry is there, yet [has] answers [false], because it tests the
    stored item for truthiness. *)
Theorem has_misses_falsy_items :
  (JsObject.get (hist (Set_add (new_Set None None) [VNum 0])) "0"
     = Some (mkEntry (VNum 0) 1)
   /\ Set_has (Set_add (new_Set None None) [VNum 0]) (VNum 0) = false)
  /\ (JsObject.get (hist (Set_add (new_Set None None) [VStr ""])) ""
        = Some (mkEntry (VStr "") 1)
      /\ Set_has (Set_add (new_Set None None) [VStr ""]) (VStr "") = false)
  /\ (JsObject.get (hist (Set_add (new_Set None None) [VBool false])) "false"
        = Some (mkEntry (VBool false) 1)
      /\ Set_has (Set_add (new_Set None None) [VBool false]) (VBool false)
         = false).
Proof. repeat split. Qed.

(* ================================================================= *)
(** ** The key-function stack *)

Lemma reachable_inv (st : UidState) :
  reachable st ->
  (exists l, uidList st = identity :: l) /\ uid st = uid_top (uidList st).
Proof.
  induction 1 as [|m st Hr [[l Hl] Hu]|st Hr [[l Hl] Hu]].
  - split; [now exists []|reflexivity].
  - simpl. rewrite Hl. split; [now exists (l ++ [m])%list|].
    unfold uid_top. change (identity :: l ++ [m])%list
      with ((identity :: l) ++ [m])%list. now rewrite last_last.
  - unfold Set_popUid. rewrite Hl.
    destruct (1 <? List.length (identity :: l))%nat eqn:E; simpl.
    + split; [|reflexivity].
      destruct l as [|x l]; [discriminate|]. now eexists.
    + split; [now exists l|reflexivity].
Qed.

Lemma pop_push (st : UidState) (method : keyfn) :
  reachable st ->
  Set_popUid (snd (Set_pushUid method st)) = (Some method, st).
Proof.
  intros Hr. destruct (reachable_inv st Hr) as [[l Hl] Hu].
  unfold Set_popUid, Set_pushUid. simpl.
  assert (E : (1 <? List.length (uidList st ++ [method]))%nat = true).
  { apply Nat.ltb_lt. rewrite length_app, Hl. simpl. lia. }
  rewrite E. unfold uid_top at 1. rewrite last_last, removelast_last.
  f_equal. destruct st as [ul u]. simpl in *. now rewrite Hu.
Qed.

(** C8: [popUid] after [pushUid] gives back the pushed method and the
    state before the push, whatever was pushed before; [this.process] of
    a set with a key function runs [Set.process] on the stack with that
    function pushed, so under that function and not under the one active
    before, and a set without key function runs it on the stack as it
    is; either way [this.process] leaves the stack and the active key
    function as it found them; the stack always holds the identity
    function at its bottom, the active function is its top, and [popUid]
    on the stack that holds only the identity function answers [null]
    and changes nothing. *)
Theorem uid_stack_nesting (st : UidState) :
  reachable st ->
  (forall method,
     Set_popUid (snd (Set_pushUid method st)) = (Some method, st))
  /\ (forall method method',
        uid (snd (Set_popUid
                    (snd (Set_pushUid method'
                            (snd (Set_pushUid method st))))))
        = method)
  /\ (forall this o ev, snd (fst (this_process st this o ev)) = st)
  /\ (forall this o ev f, hashFn this = Some f ->
        uid (snd (Set_pushUid f st)) = f
        /\ uidList (snd (Set_pushUid f st)) = (uidList st ++ [f])%list
        /\ fst (fst (this_process st this o ev))
           = Set_process (snd (Set_pushUid f st)) (Set_items this)
               (operand_items o) ev)
  /\ (forall this o ev, hashFn this = None ->
        fst (fst (this_process st this o ev))
        = Set_process st (Set_items this) (operand_items o) ev)
  /\ (fst (fst (proto_union uid_init
                  (new_Set (Some [VObj [("id", VStr "a")] None;
                                  VObj [("id", VStr "b")] None])
                     (Some (field "id")))
                  (Arr [])))
      = Out [VObj [("id", VStr "a")] None; VObj [("id", VStr "b")] None]
      /\ Set_union uid_init
           [VObj [("id", VStr "a")] None; VObj [("id", VStr "b")] None] []
         = Out [VObj [("id", VStr "a")] None])
  /\ (exists l, uidList st = identity :: l)
  /\ uid st = uid_top (uidList st)
  /\ (List.length (uidList st) = 1%nat ->
        Set_popUid st = (None, st) /\ uid st = identity)
  /\ Set_popUid uid_init = (None, uid_init).
Proof.
  intros Hr. destruct (reachable_inv st Hr) as [[l Hl] Hu].
  split; [|split; [|split; [|split; [|split; [|split;
    [|split; [|split; [|split]]]]]]]].
  - intros m. now apply pop_push.
  - intros m m'. rewrite pop_push; [reflexivity|now constructor].
  - intros this o ev. unfold this_process.
    destruct (hashFn this) as [f|]; [|reflexivity].
    change (snd (Set_popUid (snd (Set_pushUid f st))) = st).
    now rewrite pop_push.
  - intros this o ev f Hf. split; [reflexivity|]. split; [reflexivity|].
    unfold this_process, operand_items. rewrite Hf.
    destruct o; reflexivity.
  - intros this o ev Hf. unfold this_process, operand_items. rewrite Hf.
    destruct o; reflexivity.
  - split; reflexivity.
  - now exists l.
  - exact Hu.
  - intros Hlen. rewrite Hl in Hlen. destruct l; [|discriminate].
    destruct st as [ul u]. simpl in *. subst. split; reflexivity.
  - reflexivity.
Qed.

(** Two pushes on the initial stack, then one pop. *)
Lemma uid_stack_nesting_witness :
  uid (snd (Set_popUid
              (snd (Set_pushUid (field "key")
                      (snd (Set_pushUid (field "id") uid_init))))))
  = field "id".
Proof.
  apply (proj1 (proj2 (uid_stack_nesting uid_init reach_init))
           (field "id") (field "key")).
Defined.

(* ================================================================= *)
(** ** Enumeration order *)

Section Enumeration.
Context {A : Type}.
Implicit Types (l : list (string * A)) (p : string * A).

Lemma insert_index_sorted p l :
  StronglySorted index_le l ->
  StronglySorted index_le (JsObject.insert_index p l).
Proof.
  induction 1 as [|q l Hs IH Hq]; simpl.
  - repeat constructor.
  - destruct (N.leb_spec (JsObject.index_of p) (JsObject.index_of q)) as [E|E].
    + constructor; [now constructor|].
      constructor; [exact E|].
      eapply Forall_impl; [|exact Hq].
      unfold index_le. intros r Hr. lia.
    + constructor; [exact IH|].
      apply (Permutation_Forall (insert_index_perm p l)).
      constructor; [unfold index_le; lia|exact Hq].
Qed.

Lemma sort_index_sorted l : StronglySorted index_le (JsObject.sort_index l).
Proof.
  induction l as [|p l IH]; simpl;
    [constructor | now apply insert_index_sorted].
Qed.

Lemma sort_index_sorted_id l :
  StronglySorted index_le l -> JsObject.sort_index l = l.
Proof.
  induction 1 as [|p l Hs IH Hp]; simpl; [reflexivity|].
  rewrite IH. destruct l as [|q l]; simpl; [reflexivity|].
  inversion Hp as [|? ? Hpq _]; subst. unfold index_le in Hpq.
  now rewrite (proj2 (N.leb_le _ _) Hpq).
Qed.

Lemma filter_all {B : Type} (f : B -> bool) (l : list B) :
  Forall (fun x => f x = true) l -> filter f l = l.
Proof.
  induction 1 as [|x l Hx Hl IH]; simpl; [reflexivity|].
  now rewrite Hx, IH.
Qed.

Lemma filter_none {B : Type} (f : B -> bool) (l : list B) :
  Forall (fun x => f x = false) l -> filter f l = [].
Proof.
  induction 1 as [|x l Hx Hl IH]; simpl; [reflexivity|].
  now rewrite Hx, IH.
Qed.

Lemma filter_Forall {B : Type} (f : B -> bool) (l : list B) :
  Forall (fun x => f x = true) (filter f l).
Proof.
  apply Forall_forall. intros x Hx. now apply filter_In in Hx.
Qed.


(** A list that already is in enumeration order enumerates as itself. *)
Lemma for_in_ordered l1 l2 :
  Forall (fun p => JsObject.is_index p = true) l1 ->
  StronglySorted index_le l1 ->
  Forall (fun p => JsObject.is_index p = false) l2 ->
  JsObject.for_in (l1 ++ l2)%list = (l1 ++ l2)%list.
Proof.
  intros H1 Hs H2. unfold JsObject.for_in. rewrite !filter_app.
  rewrite (filter_all _ _ H1), (filter_none _ _ H2), app_nil_r.
  rewrite (sort_index_sorted_id _ Hs). f_equal.
  rewrite (filter_none (fun p => negb (JsObject.is_index p)) l1).
  - simpl. apply filter_all.
    eapply Forall_impl; [|exact H2]. simpl. now intros p ->.
  - eapply Forall_impl; [|exact H1]. simpl. now intros p ->.
Qed.
End Enumeration.


Lemma nodup_keys_filter {B : Type} (keep : string * B -> bool)
    (l : list (string * B)) :
  NoDup (map fst l) -> NoDup (map fst (filter keep l)).
Proof.
  induction l as [|p l IH]; simpl; intros Hnd; [constructor|].
  inversion Hnd as [|? ? Hnotin Hnd']; subst.
  destruct (keep p); simpl; [|now apply IH].
  constructor; [|now apply IH].
  intros Hin. apply Hnotin.
  apply in_map_iff in Hin. destruct Hin as [q [E Hq]].
  apply filter_In in Hq. rewrite <- E. apply in_map, Hq.
Qed.

(** The first loop of [Set.process] on items with fresh, distinct keys
    creates one entry per item, in order. *)
Lemma process_a_fresh (f : keyfn) (l : list value) (h : JsObject.t entry) :
  NoDup (map fst h ++ map (key_of f) l) ->
  fold_left (process_a f) l h
  = (h ++ map (fun x => (key_of f x, mkEntry x 1)) l)%list.
Proof.
  revert h. induction l as [|x l IH]; intros h Hnd; simpl.
  - now rewrite app_nil_r.
  - assert (G : JsObject.get h (key_of f x) = None).
    { apply get_none_not_in. intros Hin.
      apply NoDup_remove_2 in Hnd. apply Hnd, in_or_app. now left. }
    unfold process_a at 2. fold (key_of f x). rewrite G.
    rewrite (set_absent _ _ _ G), IH.
    + now rewrite <- app_assoc.
    + rewrite map_app, <- app_assoc. exact Hnd.
Qed.

(* ================================================================= *)
(** ** Mutable sets *)




(** A mutable set after an intersection holds the intersection. *)
Example mutable_intersection :
  Set_items
    (snd (proto_intersection uid_init
            (Set_mutable (new_Set (Some (map VNum [1; 2; 3]%Z)) None))
            (Arr (map VNum [2; 3; 4]%Z))))
  = [VNum 2; VNum 3].
Proof. reflexivity. Qed.

(* ================================================================= *)
(** ** Default keys and wrappers *)

Lemma type_code_length (p : value) :
  String.length (own_to_string (encodeObjType p)) = 1%nat.
Proof. destruct p; reflexivity. Qed.

Lemma type_code_typeOf (p q : value) :
  own_to_string (encodeObjType p) = own_to_string (encodeObjType q)
  <-> typeOf p = typeOf q.
Proof.
  destruct p, q; split; intros H; try reflexivity;
    try (vm_compute in H; discriminate).
Qed.

Lemma wrapper_key (p : value) :
  to_string (wrapObj None p)
  = "(" ++ to_string p ++ ":" ++ own_to_string (encodeObjType p) ++ ")".
Proof. reflexivity. Qed.

Lemma wrapper_key_eq (p q : value) :
  to_string (wrapObj None p) = to_string (wrapObj None q)
  <-> to_string p = to_string q /\ typeOf p = typeOf q.
Proof.
  rewrite !wrapper_key. split.
  - intros H. injection H as H.
    apply append_inj_r in H.
    + destruct H as [H1 H2]. split; [exact H1|].
      injection H2 as H2.
      apply append_inj_r in H2; [|reflexivity].
      now apply type_code_typeOf.
    + simpl. rewrite !length_append, !type_code_length. reflexivity.
  - intros [H1 H2]. apply type_code_typeOf in H2. now rewrite H1, H2.
Qed.

Lemma has_single (w w' : value) :
  Set_has (new_Set (Some [w]) None) w'
  = String.eqb (to_string w) (to_string w') && truthy w.
Proof.
  unfold Set_has, new_Set, Set_add. simpl. unfold add_one, Set_uid. simpl.
  unfold identity.
  now destruct (String.eqb (to_string w) (to_string w')).
Qed.

(** C9: without a key function the key of a value is its string, so the
    number [2] and the string ["2"] have the key ["2"] and adding both
    makes one entry, as do every integer up to 2^53 in magnitude and the
    string of its decimal digits; a wrapped value has the key [(value:typeCode)], two
    wrapped values have the same key only when their strings and their
    types agree, and the set of [wrap(1)] does not have [wrap("1")]. *)
Theorem default_keys_and_wrappers :
  (key_of identity (VNum 2) = "2" /\ key_of identity (VStr "2") = "2")
  /\ (forall n, (Z.abs n <= 2 ^ 53)%Z ->
        key_of identity (VNum n) = key_of identity (VStr (number_to_string n)))
  /\ (forall n, (Z.abs n <= 2 ^ 53)%Z ->
        hist (new_Set (Some [VNum n; VStr (number_to_string n)]) None)
        = [(number_to_string n, mkEntry (VNum n) 1)])
  /\ Set_size (new_Set (Some [VNum 2; VStr "2"]) None) = 1%nat
  /\ (forall p,
        key_of identity (wrapObj None p)
        = "(" ++ to_string p ++ ":" ++ to_string (encodeObjType p) ++ ")")
  /\ (key_of identity (wrapObj None (VNum 1)) = "(1:4)"
      /\ key_of identity (wrapObj None (VStr "1")) = "(1:5)")
  /\ (forall p q,
        key_of identity (wrapObj None p) = key_of identity (wrapObj None q)
        <-> to_string p = to_string q /\ typeOf p = typeOf q)
  /\ (forall p q, typeOf p <> typeOf q ->
        Set_has (new_Set (Some [wrapObj None p]) None) (wrapObj None q)
        = false)
  /\ (forall p,
        Set_has (new_Set (Some [wrapObj None p]) None) (wrapObj None p)
        = true)
  /\ Set_has (new_Set (Some [wrapObj None (VNum 1)]) None)
       (wrapObj None (VStr "1")) = false
  /\ Set_size (new_Set (Some [wrapObj None (VNum 1);
                              wrapObj None (VStr "1")]) None) = 2%nat.
Proof.
  split; [split; reflexivity|].
  split; [reflexivity|].
  split.
  { intros n _. simpl. unfold add_one. simpl. unfold identity. simpl.
    now rewrite String.eqb_refl. }
  split; [reflexivity|].
  split.
  { intros p. unfold key_of, identity. rewrite wrapper_key.
    now destruct p. }
  split; [split; reflexivity|].
  split; [intros p q; apply wrapper_key_eq|].
  split.
  { intros p q Hne. rewrite has_single.
    destruct (String.eqb_spec (to_string (wrapObj None p))
                (to_string (wrapObj None q))) as [E|E]; [|reflexivity].
    apply wrapper_key_eq in E. destruct E as [_ E]. contradiction. }
  split.
  { intros p. rewrite has_single. now rewrite String.eqb_refl. }
  split; reflexivity.
Qed.

(** The number [-17] and its string; the wrapped [true] and the wrapped
    ["true"]. *)
Lemma default_keys_and_wrappers_witness :
  hist (new_Set (Some [VNum (-17); VStr (number_to_string (-17))]) None)
    = [(number_to_string (-17), mkEntry (VNum (-17)) 1)]
  /\ Set_has (new_Set (Some [wrapObj None (VBool true)]) None)
       (wrapObj None (VStr "true")) = false.
Proof.
  split.
  - apply (proj1 (proj2 (proj2 default_keys_and_wrappers))).
    vm_compute. discriminate.
  - apply (proj1 (proj2 (proj2 (proj2 (proj2 (proj2 (proj2 (proj2
             default_keys_and_wrappers)))))))).
    discriminate.
Defined.

(* ================================================================= *)
(** ** More on objects used as maps *)

Section DeleteFacts.
Context {A : Type}.
Implicit Types (o : JsObject.t A) (k : string) (v : A).

Lemma get_some_in o k v : JsObject.get o k = Some v -> In (k, v) o.
Proof.
  induction o as [|[k0 v0] o IH]; simpl; [discriminate|].
  destruct (String.eqb_spec k0 k) as [->|Hk].
  - intros H. injection H as ->. now left.
  - intros H. right. now apply IH.
Qed.

Lemma delete_in o k p : In p (JsObject.delete o k) -> In p o.
Proof.
  induction o as [|[k0 v0] o IH]; simpl; [intros []|].
  destruct (String.eqb k0 k); [now right|].
  intros [H|H]; [now left|right; now apply IH].
Qed.

Lemma delete_nodup o k :
  NoDup (map fst o) -> NoDup (map fst (JsObject.delete o k)).
Proof.
  induction o as [|[k0 v0] o IH]; simpl; intros Hnd; [constructor|].
  inversion Hnd as [|? ? Hnotin Hnd']; subst.
  destruct (String.eqb k0 k); [exact Hnd'|]. simpl.
  constructor; [|now apply IH].
  intros Hin. apply Hnotin. apply in_map_iff in Hin.
  destruct Hin as [q [E Hq]]. rewrite <- E. apply in_map.
  now apply delete_in in Hq.
Qed.

Lemma get_delete o k k' :
  NoDup (map fst o) ->
  JsObject.get (JsObject.delete o k) k'
  = if String.eqb k k' then None else JsObject.get o k'.
Proof.
  induction o as [|[k0 v0] o IH]; simpl; intros Hnd.
  - now destruct (String.eqb k k').
  - inversion Hnd as [|? ? Hnotin Hnd']; subst.
    destruct (String.eqb_spec k0 k) as [->|Hk].
    + destruct (String.eqb_spec k k') as [E|Hk'].
      * rewrite <- E. now apply get_none_not_in.
      * reflexivity.
    + simpl. destruct (String.eqb_spec k0 k') as [E|Hk'].
      * rewrite <- E.
        destruct (String.eqb_spec k k0); [congruence|reflexivity].
      * now apply IH.
Qed.

Lemma delete_absent o k : JsObject.get o k = None -> JsObject.delete o k = o.
Proof.
  induction o as [|[k0 v0] o IH]; simpl; [reflexivity|].
  destruct (String.eqb k0 k); [discriminate|].
  intros H. now rewrite IH.
Qed.

Lemma delete_set_absent o k v :
  JsObject.get o k = None -> JsObject.delete (JsObject.set o k v) k = o.
Proof.
  induction o as [|[k0 v0] o IH]; simpl.
  - now rewrite String.eqb_refl.
  - destruct (String.eqb k0 k) eqn:E; [discriminate|].
    intros H. simpl. rewrite E. now rewrite IH.
Qed.

Lemma for_in_length o : List.length (JsObject.for_in o) = List.length o.
Proof. symmetry. apply Permutation_length, for_in_perm. Qed.
End DeleteFacts.

(* ================================================================= *)
(** ** The methods keep sets consistent *)

Lemma Set_uid_with_hist (this : SetObj) (h : JsObject.t entry) :
  Set_uid (with_hist this h) = Set_uid this.
Proof. reflexivity. Qed.

Lemma process_a_forall (f : keyfn) (P : string * entry -> Prop)
    (l : list value) (h : JsObject.t entry) :
  (forall x, P (key_of f x, mkEntry x 1)) ->
  Forall P h -> Forall P (fold_left (process_a f) l h).
Proof.
  intros HP. revert h. induction l as [|x l IH]; intros h Hh; simpl;
    [exact Hh|].
  apply IH. unfold process_a. fold (key_of f x).
  destruct (JsObject.get h (key_of f x)) eqn:G; [exact Hh|].
  rewrite (set_absent _ _ _ G). apply Forall_app. split; [exact Hh|].
  constructor; [apply HP|constructor].
Qed.

Lemma consistent_add (this : SetObj) (args : list value) :
  consistent this -> consistent (Set_add this args).
Proof.
  intros [Hnd Hall]. rewrite Set_add_process_a. split; simpl.
  - now apply process_a_nodup.
  - apply process_a_forall; [|exact Hall]. intros x. now split.
Qed.

Lemma consistent_empty (this : SetObj) :
  consistent (with_hist this JsObject.create_null).
Proof. split; simpl; constructor. Qed.

Lemma remove_one_hist (this : SetObj) (v : value) :
  remove_one this v
  = with_hist this
      (JsObject.delete (hist this) (key_of (Set_uid this) v)).
Proof.
  unfold remove_one. fold (key_of (Set_uid this) v).
  destruct (JsObject.get (hist this) _) eqn:G; [reflexivity|].
  now rewrite (delete_absent _ _ G), with_hist_same.
Qed.

Lemma consistent_remove_one (this : SetObj) (v : value) :
  consistent this -> consistent (remove_one this v).
Proof.
  intros [Hnd Hall]. rewrite remove_one_hist. split; simpl.
  - now apply delete_nodup.
  - apply Forall_forall. intros p Hp. apply delete_in in Hp.
    now apply (proj1 (Forall_forall _ _) Hall).
Qed.

Lemma consistent_remove (this : SetObj) (args : list value) :
  consistent this -> consistent (Set_remove this args).
Proof.
  unfold Set_remove. revert this.
  induction args as [|v args IH]; intros this H; simpl; [exact H|].
  now apply IH, consistent_remove_one.
Qed.

Lemma consistent_clear (this : SetObj) (a : option (list value)) :
  consistent (Set_clear this a).
Proof.
  destruct a as [a|]; simpl.
  - apply consistent_add, consistent_empty.
  - apply consistent_empty.
Qed.

Lemma consistent_new (a : option (list value)) (h : option keyfn) :
  consistent (new_Set a h).
Proof.
  destruct a as [a|]; simpl.
  - apply consistent_add. split; simpl; constructor.
  - split; simpl; constructor.
Qed.

(** X1: the constructor makes a consistent set (one entry per key, each
    under the key of its item, each count 1), and [add], [remove],
    [clear], [mutable], [clone] and the set operations keep a consistent
    set consistent. *)
Theorem methods_keep_consistency (st : UidState) (this : SetObj)
    (args : list value) (a : option (list value)) (h : option keyfn)
    (o : operand) (ev : option (Z -> bool)) :
  consistent (new_Set a h)
  /\ (consistent this ->
        consistent (Set_add this args)
        /\ consistent (Set_remove this args)
        /\ consistent (Set_clear this a)
        /\ consistent (Set_mutable this)
        /\ consistent (Set_clone this)
        /\ consistent (snd (this_process st this o ev))).
Proof.
  split; [apply consistent_new|]. intros H.
  split; [now apply consistent_add|].
  split; [now apply consistent_remove|].
  split; [apply consistent_clear|].
  split; [exact H|].
  split; [apply consistent_new|].
  unfold this_process. simpl.
  destruct (Set_process _ _ _ _) as [out|hst]; [|exact H].
  destruct (mutable this); [apply (consistent_clear this (Some out))|exact H].
Qed.

(** The set of [1,1,2] after [remove(1)]. *)
Lemma methods_keep_consistency_witness :
  consistent (Set_remove (new_Set (Some (map VNum [1; 1; 2]%Z)) None) [VNum 1]).
Proof.
  apply (proj2 (methods_keep_consistency uid_init
                  (new_Set (Some (map VNum [1; 1; 2]%Z)) None)
                  [VNum 1] None None (Arr []) None)).
  apply consistent_new.
Defined.

(* ================================================================= *)
(** ** [remove] *)

Lemma Set_remove_hist (this : SetObj) (args : list value) :
  Set_remove this args
  = with_hist this
      (fold_left (fun h v => JsObject.delete h (key_of (Set_uid this) v))
         args (hist this)).
Proof.
  unfold Set_remove. revert this.
  induction args as [|v args IH]; intros this; simpl.
  - now rewrite with_hist_same.
  - rewrite IH, remove_one_hist. reflexivity.
Qed.

Lemma fold_delete_nodup (f : keyfn) (args : list value) (h : JsObject.t entry) :
  NoDup (map fst h) ->
  NoDup (map fst (fold_left (fun h v => JsObject.delete h (key_of f v)) args h)).
Proof.
  revert h. induction args as [|v args IH]; intros h H; simpl; [exact H|].
  now apply IH, delete_nodup.
Qed.

Lemma fold_delete_get (f : keyfn) (args : list value) (h : JsObject.t entry)
    (k : string) :
  NoDup (map fst h) ->
  JsObject.get
    (fold_left (fun h v => JsObject.delete h (key_of f v)) args h) k
  = if existsb (String.eqb k) (keys_of f args) then None
    else JsObject.get h k.
Proof.
  revert h. induction args as [|v args IH]; intros h Hnd; simpl;
    [reflexivity|].
  rewrite IH by now apply delete_nodup.
  rewrite get_delete by exact Hnd.
  rewrite (String.eqb_sym k (key_of f v)).
  destruct (String.eqb (key_of f v) k); simpl; [|reflexivity].
  now destruct (existsb _ _).
Qed.

Lemma existsb_eqb_in (k : string) (l : list string) :
  existsb (String.eqb k) l = true <-> In k l.
Proof.
  rewrite existsb_exists. split.
  - intros [x [Hin E]]. apply String.eqb_eq in E. now subst.
  - intros Hin. exists k. split; [exact Hin|apply String.eqb_refl].
Qed.

(** X2: on a consistent set, [remove] deletes the whole entry of every
    argument's key and touches no other entry; afterwards [has] answers
    [false] for every argument. *)
Theorem remove_deletes_entries (this : SetObj) (args : list value) :
  consistent this ->
  let f := Set_uid this in
  (forall k, In k (keys_of f args) ->
     JsObject.get (hist (Set_remove this args)) k = None)
  /\ (forall k, ~ In k (keys_of f args) ->
        JsObject.get (hist (Set_remove this args)) k
        = JsObject.get (hist this) k)
  /\ (forall v, In v args -> Set_has (Set_remove this args) v = false)
  /\ hashFn (Set_remove this args) = hashFn this
  /\ mutable (Set_remove this args) = mutable this.
Proof.
  intros [Hnd _] f. subst f. rewrite Set_remove_hist. simpl.
  split; [|split; [|split; [|split; reflexivity]]].
  - intros k Hk. rewrite (fold_delete_get _ _ _ _ Hnd).
    now rewrite (proj2 (existsb_eqb_in _ _) Hk).
  - intros k Hk. rewrite (fold_delete_get _ _ _ _ Hnd).
    destruct (existsb _ _) eqn:E; [|reflexivity].
    apply existsb_eqb_in in E. contradiction.
  - intros v Hv. unfold Set_has. rewrite Set_uid_with_hist. simpl.
    fold (key_of (Set_uid this) v). rewrite (fold_delete_get _ _ _ _ Hnd).
    rewrite (proj2 (existsb_eqb_in _ _)); [reflexivity|].
    unfold keys_of. now apply in_map.
Qed.

(** [remove(3, 4)] on the set of [1,2,3,4,5], from the source's comment. *)
Lemma remove_deletes_entries_witness :
  Set_has (Set_remove (new_Set (Some (map VNum [1; 2; 3; 4; 5]%Z)) None)
             [VNum 3; VNum 4]) (VNum 4) = false.
Proof.
  apply (proj1 (proj2 (proj2 (remove_deletes_entries
           (new_Set (Some (map VNum [1; 2; 3; 4; 5]%Z)) None)
           [VNum 3; VNum 4] (consistent_new _ _))))).
  right. now left.
Defined.

Lemma Set_remove_absent (this : SetObj) (args : list value) :
  (forall v, In v args ->
     JsObject.get (hist this) (key_of (Set_uid this) v) = None) ->
  Set_remove this args = this.
Proof.
  unfold Set_remove. induction args as [|v args IH]; intros H; simpl;
    [reflexivity|].
  assert (E : remove_one this v = this).
  { unfold remove_one. fold (key_of (Set_uid this) v).
    now rewrite (H v (or_introl eq_refl)). }
  rewrite E. apply IH. intros w Hw. apply H. now right.
Qed.

(** X3: removing values whose keys are absent changes nothing, and on a
    consistent set a second [remove] of the same values changes nothing
    more. *)
Theorem remove_idempotent (this : SetObj) (args : list value) :
  ((forall v, In v args ->
      JsObject.get (hist this) (key_of (Set_uid this) v) = None) ->
   Set_remove this args = this)
  /\ (consistent this ->
        Set_remove (Set_remove this args) args = Set_remove this args).
Proof.
  split; [apply Set_remove_absent|].
  intros [Hnd _]. apply Set_remove_absent. intros v Hv.
  rewrite Set_remove_hist at 1 2. rewrite Set_uid_with_hist. simpl.
  rewrite (fold_delete_get _ _ _ _ Hnd).
  rewrite (proj2 (existsb_eqb_in _ _)); [reflexivity|].
  unfold keys_of. now apply in_map.
Qed.

(** Removing [1] and [2] twice from the set of [1,2,3]. *)
Lemma remove_idempotent_witness :
  Set_remove
    (Set_remove (new_Set (Some (map VNum [1; 2; 3]%Z)) None)
       [VNum 1; VNum 2]) [VNum 1; VNum 2]
  = Set_remove (new_Set (Some (map VNum [1; 2; 3]%Z)) None)
      [VNum 1; VNum 2].
Proof.
  apply (proj2 (remove_idempotent
                  (new_Set (Some (map VNum [1; 2; 3]%Z)) None)
                  [VNum 1; VNum 2])).
  apply consistent_new.
Defined.

(** X4: adding a value whose key is absent and removing it again gives
    back the set as it was. *)
Theorem add_then_remove (this : SetObj) (v : value) :
  JsObject.get (hist this) (key_of (Set_uid this) v) = None ->
  Set_remove (Set_add this [v]) [v] = this.
Proof.
  intros G. simpl. unfold add_one. fold (key_of (Set_uid this) v).
  rewrite G. rewrite remove_one_hist. rewrite Set_uid_with_hist. simpl.
  rewrite (delete_set_absent _ _ _ G). now destruct this.
Qed.

Lemma add_then_remove_witness :
  Set_remove (Set_add (new_Set (Some [VNum 1]) None) [VStr "a"]) [VStr "a"]
  = new_Set (Some [VNum 1]) None.
Proof.
  apply (add_then_remove (new_Set (Some [VNum 1]) None) (VStr "a")).
  reflexivity.
Defined.

Lemma Set_add_present (this : SetObj) (args : list value) :
  (forall v, In v args ->
     JsObject.get (hist this) (key_of (Set_uid this) v) <> None) ->
  Set_add this args = this.
Proof.
  unfold Set_add. induction args as [|v args IH]; intros H; simpl;
    [reflexivity|].
  assert (E : add_one this v = this).
  { unfold add_one. fold (key_of (Set_uid this) v).
    specialize (H v (or_introl eq_refl)).
    now destruct (JsObject.get (hist this) (key_of (Set_uid this) v)). }
  rewrite E. apply IH. intros w Hw. apply H. now right.
Qed.

Lemma Set_add_has_key (this : SetObj) (args : list value) (v : value) :
  In v args ->
  JsObject.get (hist (Set_add this args)) (key_of (Set_uid this) v) <> None.
Proof.
  intros Hin. rewrite Set_add_get.
  destruct (JsObject.get (hist this) _); [discriminate|].
  destruct (first_with (Set_uid this) args (key_of (Set_uid this) v)) eqn:E;
    [discriminate|].
  apply first_with_none in E. exfalso. apply E. now apply in_map.
Qed.

(** X5: [add] is idempotent: adding the same values a second time, in
    any order and any number of times each, changes nothing. *)
Theorem add_idempotent (this : SetObj) (args args' : list value) :
  incl args' args ->
  Set_add (Set_add this args) args' = Set_add this args.
Proof.
  intros Hincl. apply Set_add_present. intros v Hv.
  assert (E : Set_uid (Set_add this args) = Set_uid this)
    by now rewrite Set_add_process_a.
  rewrite E. apply Set_add_has_key. now apply Hincl.
Qed.

Lemma add_idempotent_witness :
  Set_add (Set_add (new_Set None None) [VNum 4; VNum 5]) [VNum 5; VNum 4; VNum 5]
  = Set_add (new_Set None None) [VNum 4; VNum 5].
Proof.
  apply add_idempotent.
  intros v [<-|[<-|[<-|[]]]]; simpl; auto.
Defined.

(** X6: [has] answers [true] for every added value when the items stored
    before and the added values are all truthy. *)
Theorem has_after_add (this : SetObj) (args : list value) (v : value) :
  Forall (fun it => truthy it = true) (Set_items this) ->
  Forall (fun it => truthy it = true) args ->
  In v args ->
  Set_has (Set_add this args) v = true.
Proof.
  intros Hitems Hargs Hin. apply Set_has_spec.
  assert (E : Set_uid (Set_add this args) = Set_uid this)
    by now rewrite Set_add_process_a.
  rewrite E.
  pose proof (Set_add_has_key this args v Hin) as Hk.
  rewrite Set_add_get in *.
  destruct (JsObject.get (hist this) (key_of (Set_uid this) v)) as [e|] eqn:G.
  - exists e. split; [reflexivity|].
    apply get_some_in, for_in_in in G.
    rewrite Set_items_spec, Forall_map in Hitems.
    now apply (proj1 (Forall_forall _ _) Hitems) in G.
  - destruct (first_with (Set_uid this) args _) as [x|] eqn:F;
      [|contradiction].
    exists (mkEntry x 1). split; [reflexivity|]. simpl.
    apply first_with_some in F.
    now apply (proj1 (Forall_forall _ _) Hargs).
Qed.

Lemma has_after_add_witness :
  Set_has (Set_add (new_Set (Some [VNum 1]) None) [VStr "a"; VBool true])
    (VBool true) = true.
Proof.
  apply has_after_add.
  - repeat constructor.
  - repeat constructor.
  - right. now left.
Defined.

(* ================================================================= *)
(** ** The constructor, [size], [items] and [clone] *)

Lemma new_Set_hist (a : list value) (h : option keyfn) :
  hist (new_Set (Some a) h)
  = fold_left (process_a (Set_uid (new_Set None h))) a JsObject.create_null.
Proof. unfold new_Set. now rewrite Set_add_process_a. Qed.

Lemma Set_size_length (this : SetObj) :
  Set_size this = List.length (hist this).
Proof.
  unfold Set_size. now rewrite Set_items_spec, length_map, for_in_length.
Qed.

(** X7: the size of a constructed set is the number of distinct keys of
    the array it was built from (0 without an array or with an empty
    one). *)
Theorem size_counts_distinct_keys (a : list value) (h : option keyfn) :
  Set_size (new_Set (Some a) h)
  = List.length (nodup string_dec (keys_of (Set_uid (new_Set None h)) a))
  /\ Set_size (new_Set None h) = 0%nat.
Proof.
  split; [|reflexivity].
  rewrite Set_size_length, new_Set_hist.
  set (f := Set_uid (new_Set None h)).
  rewrite <- (length_map fst). apply Permutation_length.
  apply NoDup_Permutation.
  - apply process_a_nodup. constructor.
  - apply NoDup_nodup.
  - intros k. rewrite nodup_In. unfold keys_of.
    pose proof (get_none_not_in
                  (fold_left (process_a f) a JsObject.create_null) k) as H1.
    pose proof (first_with_none f a k) as H2.
    rewrite process_a_get in H1. simpl in H1.
    destruct (first_with f a k) as [x|]; simpl in H1.
    + split.
      * intros _. destruct (in_dec string_dec k (map (key_of f) a)) as [I|I];
          [exact I|]. apply H2 in I. discriminate.
      * intros _.
        destruct (in_dec string_dec k
                    (map fst (fold_left (process_a f) a JsObject.create_null)))
          as [I|I]; [exact I|]. apply H1 in I. discriminate.
    + split.
      * intros I. exfalso. now apply (proj1 H1 eq_refl).
      * intros I. exfalso. now apply (proj1 H2 eq_refl).
Qed.

(** X8: the items of a constructed set are the first elements of the
    array for each key: later elements with a key already seen are
    dropped. *)
Theorem items_are_first_occurrences (a : list value) (h : option keyfn)
    (x : value) :
  In x (Set_items (new_Set (Some a) h))
  <-> exists k, first_with (Set_uid (new_Set None h)) a k = Some x.
Proof.
  rewrite Set_items_spec, new_Set_hist.
  set (f := Set_uid (new_Set None h)).
  set (o := fold_left (process_a f) a JsObject.create_null).
  assert (Hnd : NoDup (map fst o)) by (apply process_a_nodup; constructor).
  assert (Hget : forall k, JsObject.get o k
                   = option_map (fun y => mkEntry y 1) (first_with f a k)).
  { intros k. unfold o. now rewrite process_a_get. }
  rewrite in_map_iff. split.
  - intros [[k e] [E Hin]]. simpl in E. subst x.
    apply (proj1 (for_in_in _ _)), (get_in _ _ _ Hnd) in Hin.
    rewrite Hget in Hin. exists k.
    destruct (first_with f a k); [|discriminate].
    simpl in Hin. now injection Hin as <-.
  - intros [k Hk]. exists (k, mkEntry x 1). split; [reflexivity|].
    apply for_in_in, (get_in _ _ _ Hnd). now rewrite Hget, Hk.
Qed.

Section EnumerationTwice.
Context {A : Type}.

Lemma for_in_idem (o : JsObject.t A) :
  JsObject.for_in (JsObject.for_in o) = JsObject.for_in o.
Proof.
  unfold JsObject.for_in at 2 3. apply for_in_ordered.
  - apply (Permutation_Forall (sort_index_perm _)), filter_Forall.
  - apply sort_index_sorted.
  - apply Forall_forall. intros p Hp. apply filter_In in Hp.
    destruct Hp as [_ Hp]. now destruct (JsObject.is_index p).
Qed.
End EnumerationTwice.

(** X9: the clone of a consistent set has the same items in the same
    order, the same key function and the same [keyify] string; it is not
    mutable, whatever the original is. *)
Theorem clone_copies_items (this : SetObj) :
  consistent this ->
  hist (Set_clone this) = JsObject.for_in (hist this)
  /\ Set_items (Set_clone this) = Set_items this
  /\ Set_keyify (Set_clone this) = Set_keyify this
  /\ hashFn (Set_clone this) = hashFn this
  /\ mutable (Set_clone this) = false.
Proof.
  intros [Hnd Hall].
  assert (Hfor : forall p, In p (JsObject.for_in (hist this)) ->
            fst p = key_of (Set_uid this) (item (snd p))
            /\ freq (snd p) = 1%Z).
  { intros p Hp. apply (proj1 (for_in_in _ _)) in Hp.
    now apply (proj1 (Forall_forall _ _) Hall). }
  assert (Hh : hist (Set_clone this) = JsObject.for_in (hist this)).
  { unfold Set_clone. rewrite new_Set_hist.
    change (Set_uid (new_Set None (hashFn this))) with (Set_uid this).
    rewrite process_a_fresh.
    - simpl app. rewrite Set_items_spec, map_map.
      rewrite (map_ext_in _ (fun p => p)); [apply map_id|].
      intros [k [it fr]] Hp. destruct (Hfor _ Hp) as [E1 E2].
      simpl in *. now subst.
    - simpl app. rewrite Set_items_spec, map_map.
      rewrite (map_ext_in _ fst).
      + now apply for_in_nodup.
      + intros p Hp. symmetry. now apply Hfor. }
  assert (Hf : hashFn (Set_clone this) = hashFn this).
  { unfold Set_clone, new_Set. now rewrite Set_add_process_a. }
  assert (Hi : Set_items (Set_clone this) = Set_items this).
  { rewrite !Set_items_spec, Hh. now rewrite for_in_idem. }
  split; [exact Hh|]. split; [exact Hi|].
  split; [|split; [exact Hf|]].
  - rewrite !Set_keyify_spec, Hi. do 5 f_equal.
    apply map_ext. intros it. unfold keyify_pair, Set_uid. now rewrite Hf.
  - unfold Set_clone, new_Set. now rewrite Set_add_process_a.
Qed.

(** The clone of a mutable set. *)
Lemma clone_copies_items_witness :
  Set_items (Set_clone (Set_mutable
               (new_Set (Some [VStr "b"; VNum 3; VStr "a"; VNum 1]) None)))
  = Set_items (Set_mutable
                 (new_Set (Some [VStr "b"; VNum 3; VStr "a"; VNum 1]) None)).
Proof.
  apply (proj1 (proj2 (clone_copies_items
           (Set_mutable
              (new_Set (Some [VStr "b"; VNum 3; VStr "a"; VNum 1]) None))
           (consistent_new _ _)))).
Defined.

(* ================================================================= *)
(** ** [each] and [unwrap] *)

Lemma each_loop_upto (stop : value -> bool) (props : list (string * entry))
    (acc : list value) :
  each_loop (fun it acc => ((acc ++ [it])%list, stop it)) props acc
  = (acc ++ upto stop (map (fun p => item (snd p)) props))%list.
Proof.
  revert acc. induction props as [|[k e] props IH]; intros acc; simpl.
  - now rewrite app_nil_r.
  - destruct (stop (item e)); [reflexivity|].
    rewrite IH. now rewrite <- app_assoc.
Qed.

Lemma upto_never {B : Type} (stop : B -> bool) (l : list B) :
  Forall (fun x => stop x = false) l -> upto stop l = l.
Proof.
  induction 1 as [|x l Hx Hl IH]; simpl; [reflexivity|].
  now rewrite Hx, IH.
Qed.

(** X10: [each] hands the items to the action in enumeration order and
    stops after the first item for which the action answers true; an
    action that never answers true sees every item. *)
Theorem each_stops_at_first_true (this : SetObj) (stop : value -> bool) :
  Set_each this (fun it seen => ((seen ++ [it])%list, stop it)) []
  = upto stop (Set_items this)
  /\ (Forall (fun it => stop it = false) (Set_items this) ->
        Set_each this (fun it seen => ((seen ++ [it])%list, stop it)) []
        = Set_items this).
Proof.
  assert (E : Set_each this (fun it seen => ((seen ++ [it])%list, stop it)) []
              = upto stop (Set_items this)).
  { unfold Set_each. now rewrite each_loop_upto, Set_items_spec. }
  split; [exact E|]. intros H. rewrite E. now apply upto_never.
Qed.

Lemma each_stops_at_first_true_witness :
  Set_each (new_Set (Some (map VNum [3; 1; 2]%Z)) None)
    (fun it seen => ((seen ++ [it])%list, truthy it)) []
  = [VNum 1].
Proof.
  apply (proj1 (each_stops_at_first_true
                  (new_Set (Some (map VNum [3; 1; 2]%Z)) None) truthy)).
Defined.

Lemma array_index_paren (s : string) :
  JsObject.array_index (String "("%char s) = None.
Proof.
  unfold JsObject.array_index. simpl.
  now destruct (NilEmpty.uint_of_string s).
Qed.

Lemma wrapper_not_index (p : value) (e : entry) :
  JsObject.is_index (to_string (wrapObj None p), e) = false.
Proof.
  unfold JsObject.is_index. rewrite wrapper_key. simpl fst.
  change ("(" ++ to_string p ++ ":" ++ own_to_string (encodeObjType p) ++ ")")
    with (String "("%char
            (to_string p ++ ":" ++ own_to_string (encodeObjType p) ++ ")")).
  now rewrite array_index_paren.
Qed.

(** X11: wrapping and unwrapping is a round trip: a set built from the
    wrapped elements of an array, when no two of them have the same
    wrapper key, holds the wrapped elements in the array's order and
    [unwrap] gives the array back. *)
Theorem wrap_unwrap_round_trip (a : list value) :
  NoDup (keys_of identity (map (wrapObj None) a)) ->
  Set_items (new_Set (Some (map (wrapObj None) a)) None)
    = map (wrapObj None) a
  /\ Set_unwrap (new_Set (Some (map (wrapObj None) a)) None) = a.
Proof.
  intros Hnd.
  assert (Hh : JsObject.for_in
                 (hist (new_Set (Some (map (wrapObj None) a)) None))
               = map (fun x => (key_of identity x, mkEntry x 1))
                   (map (wrapObj None) a)).
  { rewrite new_Set_hist.
    change (Set_uid (new_Set None None)) with identity.
    rewrite process_a_fresh by exact Hnd. simpl app.
    apply (for_in_ordered []); [constructor|constructor|].
    apply Forall_map, Forall_map, Forall_forall. intros p _.
    apply wrapper_not_index. }
  split.
  - rewrite Set_items_spec, Hh, !map_map. reflexivity.
  - unfold Set_unwrap. rewrite Set_map_spec, Hh, !map_map. simpl.
    apply map_id.
Qed.

(** Wrapped [1], ["1"] and [2]. *)
Lemma wrap_unwrap_round_trip_witness :
  Set_unwrap (new_Set (Some (map (wrapObj None)
                               [VNum 1; VStr "1"; VNum 2])) None)
  = [VNum 1; VStr "1"; VNum 2].
Proof.
  refine (proj2 (wrap_unwrap_round_trip [VNum 1; VStr "1"; VNum 2] _)).
  vm_compute. repeat constructor; simpl; intuition discriminate.
Defined.

(* ================================================================= *)
(** ** What the four operations answer *)

Section Answers.
Variable f : keyfn.
Variables a b : list value.

Lemma with_codes_in (cs : list Z) (x : value) :
  In x (with_codes cs (process_hist f a b))
  <-> exists k e, JsObject.get (process_hist f a b) k = Some e
                  /\ item e = x
                  /\ existsb (Z.eqb (freq e)) cs = true.
Proof.
  unfold with_codes. rewrite in_map_iff. split.
  - intros [[k e] [E Hin]]. apply filter_In in Hin. destruct Hin as [Hin C].
    apply (proj1 (for_in_in _ _)) in Hin.
    apply (get_in _ _ _ (process_hist_nodup f a b)) in Hin.
    exists k, e. auto.
  - intros [k [e [G [E C]]]]. exists (k, e). split; [exact E|].
    apply filter_In. split; [|exact C].
    apply for_in_in. now apply (get_in _ _ _ (process_hist_nodup f a b)).
Qed.

Lemma with_codes_nodup (cs : list Z) :
  NoDup (keys_of f (with_codes cs (process_hist f a b))).
Proof.
  unfold keys_of, with_codes. rewrite map_map.
  rewrite (map_ext_in _ fst).
  - apply nodup_keys_filter, for_in_nodup, process_hist_nodup.
  - intros [k e] Hin. apply filter_In in Hin. destruct Hin as [Hin _].
    apply (proj1 (for_in_in _ _)) in Hin. simpl.
    now apply (process_hist_entry _ _ _ _ _ Hin).
Qed.

Ltac table_cases k :=
  rewrite (process_hist_get f a b k) in *;
  destruct (first_with f a k) eqn:?, (first_with f b k) eqn:?.

Lemma union_in (x : value) :
  In x (with_codes [1; 2; 3]%Z (process_hist f a b))
  <-> exists k, first_with f a k = Some x
                \/ (first_with f a k = None /\ first_with f b k = Some x).
Proof.
  rewrite with_codes_in. split.
  - intros [k [e [G [E C]]]]. exists k. table_cases k;
      try discriminate; injection G as <-; simpl in *; subst; auto.
  - intros [k H]. exists k.
    destruct H as [H|[H1 H2]]; table_cases k; try discriminate;
      eexists; (split; [reflexivity|]); simpl; split; congruence.
Qed.

Lemma intersection_in (x : value) :
  In x (with_codes [3]%Z (process_hist f a b))
  <-> exists k, first_with f a k = Some x /\ first_with f b k <> None.
Proof.
  rewrite with_codes_in. split.
  - intros [k [e [G [E C]]]]. exists k. table_cases k;
      try discriminate; injection G as <-; simpl in *; subst;
      try discriminate. split; [reflexivity|discriminate].
  - intros [k [H1 H2]]. exists k. table_cases k; try discriminate;
      try contradiction.
    eexists; (split; [reflexivity|]); simpl; split; congruence.
Qed.

Lemma difference_in (x : value) :
  In x (with_codes [1; 2]%Z (process_hist f a b))
  <-> exists k, (first_with f a k = Some x /\ first_with f b k = None)
                \/ (first_with f a k = None /\ first_with f b k = Some x).
Proof.
  rewrite with_codes_in. split.
  - intros [k [e [G [E C]]]]. exists k. table_cases k;
      try discriminate; injection G as <-; simpl in *; subst;
      try discriminate; auto.
  - intros [k H]. exists k.
    destruct H as [[H1 H2]|[H1 H2]]; table_cases k; try discriminate;
      eexists; (split; [reflexivity|]); simpl; split; congruence.
Qed.

Lemma complement_in (x : value) :
  In x (with_codes [1]%Z (process_hist f a b))
  <-> exists k, first_with f a k = Some x /\ first_with f b k = None.
Proof.
  rewrite with_codes_in. split.
  - intros [k [e [G [E C]]]]. exists k. table_cases k;
      try discriminate; injection G as <-; simpl in *; subst;
      try discriminate; auto.
  - intros [k [H1 H2]]. exists k. table_cases k; try discriminate.
    eexists; (split; [reflexivity|]); simpl; split; congruence.
Qed.
End Answers.

Lemma Set_process_codes (st : UidState) (a b : list value)
    (ev : Z -> bool) (cs : list Z) :
  (forall z, (z = 1 \/ z = 2 \/ z = 3)%Z -> ev z = existsb (Z.eqb z) cs) ->
  Set_process st a b (Some ev) = Out (with_codes cs (process_hist (uid st) a b)).
Proof.
  intros H. unfold Set_process. f_equal. now apply evaluate_with_codes.
Qed.

Lemma first_with_in (f : keyfn) (l : list value) (k : string) :
  first_with f l k <> None <-> In k (keys_of f l).
Proof.
  pose proof (first_with_none f l k) as H. unfold keys_of.
  destruct (first_with f l k).
  - split; [|discriminate]. intros _.
    destruct (in_dec string_dec k (map (key_of f) l)) as [I|I]; [exact I|].
    apply H in I. discriminate.
  - split; [intros C; now contradiction C|].
    intros I C. now apply (proj1 H eq_refl).
Qed.

(** X12: [Set.union] answers one item per key of [a] or [b], no key
    twice: the first element of [a] with the key or, for the keys of [b]
    alone, the first element of [b] with the key.  For an element both
    arrays hold under one key, the item comes from [a]. *)
Theorem union_answers (st : UidState) (a b : list value) :
  let f := uid st in
  exists out,
    Set_union st a b = Out out
    /\ (forall x, In x out <->
          exists k, first_with f a k = Some x
                    \/ (~ In k (keys_of f a) /\ first_with f b k = Some x))
    /\ (forall k, In k (keys_of f out) <->
          In k (keys_of f a) \/ In k (keys_of f b))
    /\ NoDup (keys_of f out).
Proof.
  intros f. exists (with_codes [1; 2; 3]%Z (process_hist f a b)).
  assert (Hin : forall x,
    In x (with_codes [1; 2; 3]%Z (process_hist f a b)) <->
    exists k, first_with f a k = Some x
              \/ (~ In k (keys_of f a) /\ first_with f b k = Some x)).
  { intros x. rewrite union_in. split; intros [k H]; exists k.
    - destruct H as [H|[H1 H2]]; [now left|right]. split; [|exact H2].
      now apply first_with_none.
    - destruct H as [H|[H1 H2]]; [now left|right]. split; [|exact H2].
      now apply first_with_none. }
  split; [apply Set_process_codes; auto with evaluators|].
  split; [exact Hin|]. split; [|apply with_codes_nodup].
  intros k. unfold keys_of at 1. rewrite in_map_iff. split.
  - intros [x [E Hx]]. apply Hin in Hx. destruct Hx as [k' [H|[_ H]]];
      apply first_with_some in H; destruct H as [H1 H2];
      rewrite E in H2; subst k'; [left|right];
      unfold keys_of; rewrite <- E; now apply in_map.
  - intros H.
    destruct (first_with f a k) as [x|] eqn:Ea.
    + exists x. split; [now apply first_with_some in Ea|].
      apply Hin. exists k. now left.
    + destruct H as [H|H]; [apply first_with_in in H; contradiction|].
      apply first_with_in in H.
      destruct (first_with f b k) as [y|] eqn:Eb; [|contradiction].
      exists y. split; [now apply first_with_some in Eb|].
      apply Hin. exists k. right. split; [now apply first_with_none|exact Eb].
Qed.

(** X13: [Set.intersection] answers, for each key that [a] and [b] have
    in common, the first element of [a] with that key: its items all
    come from [a], never from [b], and no key comes twice. *)
Theorem intersection_answers (st : UidState) (a b : list value) :
  let f := uid st in
  exists out,
    Set_intersection st a b = Out out
    /\ (forall x, In x out <->
          exists k, first_with f a k = Some x /\ In k (keys_of f b))
    /\ (forall k, In k (keys_of f out) <->
          In k (keys_of f a) /\ In k (keys_of f b))
    /\ incl out a
    /\ NoDup (keys_of f out).
Proof.
  intros f. exists (with_codes [3]%Z (process_hist f a b)).
  assert (Hin : forall x,
    In x (with_codes [3]%Z (process_hist f a b)) <->
    exists k, first_with f a k = Some x /\ In k (keys_of f b)).
  { intros x. rewrite intersection_in.
    split; intros [k [H1 H2]]; exists k; (split; [exact H1|]);
      now apply first_with_in. }
  split; [apply Set_process_codes; auto with evaluators|].
  split; [exact Hin|].
  split; [|split; [|apply with_codes_nodup]].
  - intros k. unfold keys_of at 1. rewrite in_map_iff. split.
    + intros [x [E Hx]]. apply Hin in Hx. destruct Hx as [k' [H1 H2]].
      apply first_with_some in H1. destruct H1 as [H1 H3].
      rewrite E in H3. subst k'. split; [|exact H2].
      unfold keys_of. rewrite <- E. now apply in_map.
    + intros [Ha Hb]. apply first_with_in in Ha.
      destruct (first_with f a k) as [x|] eqn:Ea; [|contradiction].
      exists x. split; [now apply first_with_some in Ea|].
      apply Hin. now exists k.
  - intros x Hx. apply Hin in Hx. destruct Hx as [k [H _]].
    now apply first_with_some in H.
Qed.

(** X14: [Set.difference] answers, for each key that exactly one of [a]
    and [b] has, the first element with that key in the array that has
    it; no key comes twice. *)
Theorem difference_answers (st : UidState) (a b : list value) :
  let f := uid st in
  exists out,
    Set_difference st a b = Out out
    /\ (forall x, In x out <->
          exists k, (first_with f a k = Some x /\ ~ In k (keys_of f b))
                    \/ (~ In k (keys_of f a) /\ first_with f b k = Some x))
    /\ NoDup (keys_of f out).
Proof.
  intros f. exists (with_codes [1; 2]%Z (process_hist f a b)).
  split; [apply Set_process_codes; auto with evaluators|].
  split; [|apply with_codes_nodup].
  intros x. rewrite difference_in.
  split; intros [k H]; exists k;
    (destruct H as [[H1 H2]|[H1 H2]]; [left|right]; split;
     try assumption; now apply first_with_none).
Qed.

(** X15: [Set.complement] answers, for each key of [a] that is no key of
    [b], the first element of [a] with that key: its items all come from
    [a] and no key comes twice. *)
Theorem complement_answers (st : UidState) (a b : list value) :
  let f := uid st in
  exists out,
    Set_complement st a b = Out out
    /\ (forall x, In x out <->
          exists k, first_with f a k = Some x /\ ~ In k (keys_of f b))
    /\ incl out a
    /\ NoDup (keys_of f out).
Proof.
  intros f. exists (with_codes [1]%Z (process_hist f a b)).
  assert (Hin : forall x,
    In x (with_codes [1]%Z (process_hist f a b)) <->
    exists k, first_with f a k = Some x /\ ~ In k (keys_of f b)).
  { intros x. rewrite complement_in.
    split; intros [k [H1 H2]]; exists k; (split; [exact H1|]);
      now apply first_with_none. }
  split; [apply Set_process_codes; auto with evaluators|].
  split; [exact Hin|]. split; [|apply with_codes_nodup].
  intros x Hx. apply Hin in Hx. destruct Hx as [k [H _]].
  now apply first_with_some in H.
Qed.

(** X16: the symmetric difference is made of the two relative
    complements: an item is in [Set.difference(a, b)] exactly when it is
    in [Set.complement(a, b)] or in [Set.complement(b, a)]. *)
Theorem difference_of_complements (st : UidState) (a b : list value)
    (x : value) :
  In x (array_of (Set_difference st a b))
  <-> In x (array_of (Set_complement st a b))
      \/ In x (array_of (Set_complement st b a)).
Proof.
  unfold Set_difference, Set_complement.
  rewrite (Set_process_codes st a b ev_complement [1]%Z),
    (Set_process_codes st b a ev_complement [1]%Z),
    (Set_process_codes st a b ev_difference [1; 2]%Z)
    by auto with evaluators.
  simpl array_of. rewrite difference_in, !complement_in. split.
  - intros [k [H|[H1 H2]]]; [left|right]; now exists k.
  - intros [[k H]|[k [H1 H2]]]; exists k; [now left|now right].
Qed.

(** X17: intersection and relative complement split the distinct items
    of [a]: an item of [Set.union(a, [])] is in [Set.intersection(a, b)]
    or in [Set.complement(a, b)], and never in both. *)
Theorem intersection_and_complement_split (st : UidState)
    (a b : list value) (x : value) :
  (In x (array_of (Set_union st a []))
   <-> In x (array_of (Set_intersection st a b))
       \/ In x (array_of (Set_complement st a b)))
  /\ ~ (In x (array_of (Set_intersection st a b))
        /\ In x (array_of (Set_complement st a b))).
Proof.
  unfold Set_union, Set_intersection, Set_complement.
  rewrite (Set_process_codes st a [] ev_union [1; 2; 3]%Z),
    (Set_process_codes st a b ev_intersection [3]%Z),
    (Set_process_codes st a b ev_complement [1]%Z)
    by auto with evaluators.
  simpl array_of. rewrite union_in, intersection_in, complement_in.
  split; [split|].
  - intros [k [H|[_ H]]]; [|discriminate].
    destruct (first_with (uid st) b k) eqn:Eb.
    + left. exists k. split; [exact H|]. now rewrite Eb.
    + right. now exists k.
  - intros [[k [H _]]|[k [H _]]]; exists k; now left.
  - intros [[k [H1 H2]] [k' [H3 H4]]].
    apply first_with_some in H1, H3.
    destruct H1 as [_ E1], H3 as [_ E3]. rewrite E1 in E3. subst k'.
    contradiction.
Qed.

Lemma with_codes_key_in (f : keyfn) (a b : list value) (cs : list Z)
    (k : string) :
  In k (keys_of f (with_codes cs (process_hist f a b)))
  <-> exists e, JsObject.get (process_hist f a b) k = Some e
                /\ existsb (Z.eqb (freq e)) cs = true.
Proof.
  unfold keys_of. rewrite in_map_iff. split.
  - intros [x [E Hx]]. apply with_codes_in in Hx.
    destruct Hx as [k' [e [G [Ei C]]]]. exists e. split; [|exact C].
    pose proof (get_some_in _ _ _ G) as Hin.
    destruct (process_hist_entry _ _ _ _ _ Hin) as [Hk _].
    rewrite Ei, E in Hk. now subst k'.
  - intros [e [G C]]. exists (item e). split.
    + apply get_some_in in G. now apply (process_hist_entry _ _ _ _ _ G).
    + apply with_codes_in. now exists k, e.
Qed.

Lemma with_codes_keys_swap (f : keyfn) (a b : list value) (cs : list Z) :
  existsb (Z.eqb 1) cs = existsb (Z.eqb 2) cs ->
  Permutation (keys_of f (with_codes cs (process_hist f a b)))
              (keys_of f (with_codes cs (process_hist f b a))).
Proof.
  intros Hcs. apply NoDup_Permutation; try apply with_codes_nodup.
  intros k. rewrite !with_codes_key_in, !process_hist_get.
  destruct (first_with f a k), (first_with f b k);
    split; intros [e [G C]]; try discriminate;
    injection G as <-; simpl in C; eexists; (split; [reflexivity|]);
    simpl; congruence.
Qed.

(** X18: union, intersection and symmetric difference are commutative
    on keys: swapping the two arrays gives the same keys, each once (in
    another order, and with the other array's items). *)
Theorem operations_commute_on_keys (st : UidState) (a b : list value) :
  let f := uid st in
  Permutation (keys_of f (array_of (Set_union st a b)))
              (keys_of f (array_of (Set_union st b a)))
  /\ Permutation (keys_of f (array_of (Set_intersection st a b)))
                 (keys_of f (array_of (Set_intersection st b a)))
  /\ Permutation (keys_of f (array_of (Set_difference st a b)))
                 (keys_of f (array_of (Set_difference st b a))).
Proof.
  intros f. unfold Set_union, Set_intersection, Set_difference.
  rewrite (Set_process_codes st a b ev_union [1; 2; 3]%Z),
    (Set_process_codes st b a ev_union [1; 2; 3]%Z),
    (Set_process_codes st a b ev_intersection [3]%Z),
    (Set_process_codes st b a ev_intersection [3]%Z),
    (Set_process_codes st a b ev_difference [1; 2]%Z),
    (Set_process_codes st b a ev_difference [1; 2]%Z)
    by auto with evaluators.
  simpl array_of. repeat split; now apply with_codes_keys_swap.
Qed.

Lemma no_element_nil {B : Type} (l : list B) :
  (forall x, ~ In x l) -> l = [].
Proof.
  destruct l as [|y l]; [reflexivity|].
  intros H. exfalso. apply (H y). now left.
Qed.

(** X19: empty and equal operands: the intersection with an empty array
    and the complement of an empty array are empty; the difference and
    the complement of an array with itself are empty; the union of two
    empty arrays is empty. *)
Theorem operations_on_empty_and_self (st : UidState) (a : list value) :
  Set_intersection st a [] = Out []
  /\ Set_intersection st [] a = Out []
  /\ Set_complement st [] a = Out []
  /\ Set_complement st a a = Out []
  /\ Set_difference st a a = Out []
  /\ Set_union st [] [] = Out [].
Proof.
  unfold Set_intersection, Set_complement, Set_difference.
  rewrite (Set_process_codes st a [] ev_intersection [3]%Z),
    (Set_process_codes st [] a ev_intersection [3]%Z),
    (Set_process_codes st [] a ev_complement [1]%Z),
    (Set_process_codes st a a ev_complement [1]%Z),
    (Set_process_codes st a a ev_difference [1; 2]%Z)
    by auto with evaluators.
  repeat split; f_equal; apply no_element_nil; intros x Hx.
  - apply intersection_in in Hx. destruct Hx as [k [_ H]]. now apply H.
  - apply intersection_in in Hx. destruct Hx as [k [H _]]. discriminate.
  - apply complement_in in Hx. destruct Hx as [k [H _]]. discriminate.
  - apply complement_in in Hx. destruct Hx as [k [H1 H2]]. congruence.
  - apply difference_in in Hx.
    destruct Hx as [k [[H1 H2]|[H1 H2]]]; congruence.
Qed.

Lemma filter_nil_iff {B : Type} (p : B -> bool) (l : list B) :
  filter p l = [] <-> Forall (fun x => p x = false) l.
Proof.
  induction l as [|x l IH]; simpl.
  - split; [constructor|reflexivity].
  - destruct (p x) eqn:E.
    + split; [discriminate|]. intros H. inversion H; subst. congruence.
    + rewrite IH. split; [now constructor|]. intros H. now inversion H.
Qed.

(** X20: [Set.equals] answers [true] exactly when the symmetric
    difference is empty and the union is not; with an empty array on
    either side it answers [false]. *)
Theorem equals_by_difference (st : UidState) (a b : list value) :
  (Set_equals st a b = true
   <-> Set_difference st a b = Out [] /\ Set_union st a b <> Out [])
  /\ Set_equals st [] b = false
  /\ Set_equals st a [] = false.
Proof.
  split; [|split].
  - unfold Set_equals, Set_difference, Set_union, Set_process, hist_of.
    rewrite equals_loop_spec, !evaluate_filter. simpl app.
    set (l := JsObject.for_in (process_hist (uid st) a b)).
    assert (Hcodes : forall p, In p l ->
              (freq (snd p) = 1 \/ freq (snd p) = 2 \/ freq (snd p) = 3)%Z).
    { intros [k e] Hp. apply (proj1 (for_in_in _ _)) in Hp.
      now apply (process_hist_entry _ _ _ _ _ Hp). }
    assert (Hall : filter (fun _ : string * entry => true) l = l)
      by (clear; induction l as [|p l IH]; simpl; congruence).
    unfold ev_union. rewrite Hall. split.
    + intros [Hne H3]. split.
      * f_equal. replace (filter _ l) with (@nil (string * entry));
          [reflexivity|]. symmetry. apply filter_nil_iff.
        eapply Forall_impl; [|exact H3]. simpl. intros p ->. reflexivity.
      * intros E. injection E as E. apply map_eq_nil in E. contradiction.
    + intros [Hd Hu]. split.
      * intros E. apply Hu. now rewrite E.
      * injection Hd as Hd. apply map_eq_nil, filter_nil_iff in Hd.
        rewrite Forall_forall in *. intros p Hp.
        specialize (Hd p Hp). unfold ev_difference in Hd.
        destruct (Hcodes p Hp) as [E|[E|E]]; rewrite E in Hd;
          try discriminate. exact E.
  - unfold Set_equals, Set_process, hist_of.
    destruct (equals_loop (process_hist (uid st) [] b)) eqn:E;
      [|reflexivity].
    apply equals_hist_spec in E. destruct E as [[H|H] Hs];
      [now contradiction H|].
    destruct b as [|y b]; [now contradiction H|].
    exfalso. apply (proj2 (Hs (key_of (uid st) y))). now left.
  - unfold Set_equals, Set_process, hist_of.
    destruct (equals_loop (process_hist (uid st) a [])) eqn:E;
      [|reflexivity].
    apply equals_hist_spec in E. destruct E as [[H|H] Hs];
      [|now contradiction H].
    destruct a as [|x a]; [now contradiction H|].
    exfalso. apply (proj1 (Hs (key_of (uid st) x))). now left.
Qed.

(* ================================================================= *)
(** ** Type codes and the key-function stack *)

(** X21: the type-code dictionary is the inverse of the list of types:
    [codes[type]] is [i] exactly when [types[i]] is [type], so distinct
    types have distinct codes; and [encodeObjType] answers the position
    of the value's type, never the type name, for every value of a
    listed type. *)
Theorem type_codes_invert_types (type : string) (i : nat) (obj : value) :
  (codes type = Some i <-> nth_error types i = Some type)
  /\ (exists c, encodeObjType obj = VNum (Z.of_nat c)
                /\ nth_error types c = Some (typeOf obj)).
Proof.
  split.
  - unfold codes, types. split.
    + unfold codes_from.
      repeat (match goal with
              | |- context [String.eqb ?s type] =>
                  destruct (String.eqb_spec s type) as [<-|?];
                  [intros H; injection H as <-; reflexivity|]
              end).
      discriminate.
    + intros H.
      do 14 (destruct i as [|i];
             [injection H as <-; reflexivity|simpl in H]).
      destruct i; discriminate.
  - destruct obj; eexists; (split; [reflexivity|reflexivity]).
Qed.

Lemma removelast_cons_length {B : Type} (x : B) (l : list B) :
  l <> [] ->
  removelast (x :: l) = x :: removelast l
  /\ List.length (removelast l) = pred (List.length l).
Proof.
  intros H. destruct l as [|y l]; [contradiction|]. split; [reflexivity|].
  clear H. revert y. induction l as [|z l IH]; intros y; [reflexivity|].
  change (List.length (removelast (y :: z :: l)))
    with (S (List.length (removelast (z :: l)))).
  now rewrite (IH z).
Qed.

Lemma popUid_deep (ul : list keyfn) (u : keyfn) :
  (1 < List.length ul)%nat ->
  snd (Set_popUid (mkUid ul u))
  = mkUid (removelast ul) (uid_top (removelast ul)).
Proof.
  intros H. unfold Set_popUid. simpl uidList.
  now rewrite (proj2 (Nat.ltb_lt _ _) H).
Qed.

Lemma pops_to_base (l : list keyfn) :
  pops (List.length l) (mkUid (identity :: l) (uid_top (identity :: l)))
  = uid_init.
Proof.
  remember (List.length l) as n eqn:Hn. revert l Hn.
  induction n as [|n IH]; intros l Hn.
  - destruct l; [reflexivity|discriminate].
  - assert (Hne : l <> []) by (intros ->; discriminate).
    destruct (removelast_cons_length identity l Hne) as [E1 E2].
    change (pops (S n) ?s) with (pops n (snd (Set_popUid s))).
    rewrite popUid_deep by (simpl; lia).
    rewrite E1. apply IH. rewrite E2, <- Hn. reflexivity.
Qed.

(** X22: however many key functions were pushed, popping as many times
    as the stack is deep restores the initial state, with the identity
    function active, and further calls of [popUid] change nothing. *)
Theorem pops_restore_identity (st : UidState) (n : nat) :
  reachable st ->
  pops (List.length (uidList st) - 1) st = uid_init
  /\ pops (List.length (uidList st) - 1 + n) st = uid_init
  /\ pops n uid_init = uid_init.
Proof.
  intros Hr. destruct (reachable_inv st Hr) as [[l Hl] Hu].
  assert (Hbase : forall m, pops m uid_init = uid_init)
    by (induction m as [|m IH]; [reflexivity|exact IH]).
  assert (Hst : st = mkUid (identity :: l) (uid_top (identity :: l))).
  { destruct st as [ul u]. simpl in *. now subst. }
  assert (H1 : pops (List.length (uidList st) - 1) st = uid_init).
  { rewrite Hl.
    replace (List.length (identity :: l) - 1)%nat with (List.length l)
      by (simpl; lia).
    rewrite Hst. apply pops_to_base. }
  split; [exact H1|]. split; [|apply Hbase].
  assert (Hadd : forall m k s, pops (m + k) s = pops k (pops m s)).
  { induction m as [|m IH]; intros k s; [reflexivity|apply IH]. }
  now rewrite Hadd, H1.
Qed.

(** Three pushes, then two pops and three more. *)
Lemma pops_restore_identity_witness :
  pops (3 + 2)
    (snd (Set_pushUid (field "a")
            (snd (Set_pushUid (field "b")
                    (snd (Set_pushUid (field "c") uid_init))))))
  = uid_init.
Proof.
  apply (proj1 (proj2 (pops_restore_identity
           (snd (Set_pushUid (field "a")
                   (snd (Set_pushUid (field "b")
                           (snd (Set_pushUid (field "c") uid_init))))))
           2
           (reach_push _ _ (reach_push _ _ (reach_push _ _ reach_init)))))).
Defined.

(* ================================================================= *)
(** ** The prototype operations and the static ones *)

Section SameEnumeration.
Context {A : Type}.
Implicit Types (o : JsObject.t A) (p q : string * A).

Lemma array_index_string (k : string) (n : N) :
  JsObject.array_index k = Some n ->
  NilZero.string_of_uint (N.to_uint n) = k.
Proof.
  unfold JsObject.array_index.
  destruct (NilZero.uint_of_string k) as [d|]; [|discriminate].
  destruct (String.eqb_spec (NilZero.string_of_uint (N.to_uint (N.of_uint d))) k)
    as [E|E]; simpl; [|discriminate].
  destruct (N.of_uint d <? 4294967295)%N; [|discriminate].
  intros H. now injection H as <-.
Qed.

Lemma index_of_inj p q :
  JsObject.is_index p = true -> JsObject.is_index q = true ->
  JsObject.index_of p = JsObject.index_of q -> fst p = fst q.
Proof.
  unfold JsObject.is_index, JsObject.index_of.
  destruct (JsObject.array_index (fst p)) as [n|] eqn:Ep; [|discriminate].
  destruct (JsObject.array_index (fst q)) as [m|] eqn:Eq; [|discriminate].
  intros _ _ ->.
  apply array_index_string in Ep, Eq. congruence.
Qed.

Lemma nodup_keys_inj o p q :
  NoDup (map fst o) -> In p o -> In q o -> fst p = fst q -> p = q.
Proof.
  intros Hnd Hp Hq E. destruct p as [k v], q as [k' v']. simpl in E. subst k'.
  apply (get_in _ _ _ Hnd) in Hp, Hq. congruence.
Qed.

Lemma sorted_index_unique (l1 l2 : list (string * A)) :
  StronglySorted index_le l1 -> StronglySorted index_le l2 ->
  Permutation l1 l2 ->
  (forall p q, In p l1 -> In q l1 ->
     JsObject.index_of p = JsObject.index_of q -> p = q) ->
  l1 = l2.
Proof.
  intros H1. revert l2.
  induction H1 as [|x l1 Hs1 IH Hx]; intros l2 H2 HP Hinj.
  - now apply Permutation_nil in HP.
  - destruct H2 as [|y l2 Hs2 Hy].
    + apply Permutation_sym, Permutation_nil in HP. discriminate.
    + assert (Hyin : In y (x :: l1))
        by (apply (Permutation_in _ (Permutation_sym HP)); now left).
      assert (Hxin : In x (y :: l2))
        by (apply (Permutation_in _ HP); now left).
      assert (x = y) as <-.
      { apply Hinj; [now left|exact Hyin|].
        assert (Hxy : index_le x y).
        { destruct Hyin as [->|Hin]; [unfold index_le; lia|].
          now apply (proj1 (Forall_forall _ _) Hx). }
        assert (Hyx : index_le y x).
        { destruct Hxin as [->|Hin]; [unfold index_le; lia|].
          now apply (proj1 (Forall_forall _ _) Hy). }
        unfold index_le in *. lia. }
      f_equal. apply IH; [exact Hs2|now apply Permutation_cons_inv with x|].
      intros p q Hp Hq. apply Hinj; now right.
Qed.

Lemma Permutation_filter {B : Type} (g : B -> bool) (l l' : list B) :
  Permutation l l' -> Permutation (filter g l) (filter g l').
Proof.
  induction 1 as [|x l l' HP IH|x y l|l l' l'' H1 IH1 H2 IH2]; simpl.
  - constructor.
  - destruct (g x); [now constructor|exact IH].
  - destruct (g x), (g y); try apply Permutation_refl. apply perm_swap.
  - now apply perm_trans with (filter g l').
Qed.

(** Enumeration depends on the properties present and on the creation
    order of those that are not array indices, on nothing else. *)
Lemma for_in_canonical o o' :
  NoDup (map fst o) -> Permutation o o' ->
  filter (fun p => negb (JsObject.is_index p)) o
  = filter (fun p => negb (JsObject.is_index p)) o' ->
  JsObject.for_in o = JsObject.for_in o'.
Proof.
  intros Hnd HP Hf. unfold JsObject.for_in. rewrite Hf. f_equal.
  apply sorted_index_unique; try apply sort_index_sorted.
  - eapply perm_trans; [apply Permutation_sym, sort_index_perm|].
    eapply perm_trans; [|apply sort_index_perm].
    now apply Permutation_filter.
  - intros p q Hp Hq E.
    apply (Permutation_in _ (Permutation_sym (sort_index_perm _))) in Hp, Hq.
    apply filter_In in Hp, Hq. destruct Hp as [Hp Ip], Hq as [Hq Iq].
    apply (nodup_keys_inj o); try assumption.
    now apply index_of_inj.
Qed.

Lemma get_perm o o' k :
  NoDup (map fst o) -> Permutation o o' ->
  JsObject.get o k = JsObject.get o' k.
Proof.
  intros Hnd HP.
  assert (Hnd' : NoDup (map fst o'))
    by (eapply Permutation_NoDup; [apply Permutation_map, HP|exact Hnd]).
  destruct (JsObject.get o k) as [v|] eqn:G.
  - apply (get_in _ _ _ Hnd) in G. apply (Permutation_in _ HP) in G.
    symmetry. now apply (get_in _ _ _ Hnd').
  - symmetry. apply get_none_not_in. apply get_none_not_in in G.
    intros Hin. apply G.
    apply (Permutation_in _ (Permutation_sym (Permutation_map fst HP))).
    exact Hin.
Qed.

Lemma set_present_map o k v v' :
  NoDup (map fst o) -> JsObject.get o k = Some v' ->
  JsObject.set o k v
  = map (fun p => if String.eqb (fst p) k then (fst p, v) else p) o.
Proof.
  induction o as [|[k0 v0] o IH]; simpl; [discriminate|].
  intros Hnd G. inversion Hnd as [|? ? Hnotin Hnd']; subst.
  destruct (String.eqb_spec k0 k) as [->|Hk].
  - f_equal. symmetry. rewrite <- (map_id o) at 2. apply map_ext_in.
    intros [k1 v1] Hin. simpl.
    destruct (String.eqb_spec k1 k) as [->|]; [|reflexivity].
    exfalso. apply Hnotin. now apply (in_map fst) in Hin.
  - f_equal. now apply IH.
Qed.

Lemma filter_nonindex_for_in o :
  filter (fun p => negb (JsObject.is_index p)) (JsObject.for_in o)
  = filter (fun p => negb (JsObject.is_index p)) o.
Proof.
  unfold JsObject.for_in. rewrite filter_app.
  rewrite (filter_none (fun p => negb (JsObject.is_index p))
             (JsObject.sort_index (filter JsObject.is_index o))).
  - simpl. apply filter_all. apply Forall_forall. intros p Hp.
    now apply filter_In in Hp.
  - apply (Permutation_Forall (sort_index_perm _)).
    apply Forall_forall. intros p Hp. apply filter_In in Hp.
    destruct Hp as [_ ->]. reflexivity.
Qed.
End SameEnumeration.

Lemma process_b_same (g : keyfn) (o o' : JsObject.t entry) (y : value) :
  NoDup (map fst o) -> Permutation o o' ->
  filter (fun p => negb (JsObject.is_index p)) o
  = filter (fun p => negb (JsObject.is_index p)) o' ->
  NoDup (map fst (process_b g o y))
  /\ Permutation (process_b g o y) (process_b g o' y)
  /\ filter (fun p => negb (JsObject.is_index p)) (process_b g o y)
     = filter (fun p => negb (JsObject.is_index p)) (process_b g o' y).
Proof.
  intros Hnd HP Hf.
  assert (Hnd' : NoDup (map fst o'))
    by (eapply Permutation_NoDup; [apply Permutation_map, HP|exact Hnd]).
  unfold process_b. rewrite <- (get_perm o o' _ Hnd HP).
  destruct (JsObject.get o (to_string (g y))) as [e|] eqn:G.
  - destruct (freq e =? 1)%Z; [|now repeat split].
    split; [now apply set_nodup|].
    assert (G' : JsObject.get o' (to_string (g y)) = Some e)
      by now rewrite <- (get_perm o o' _ Hnd HP).
    rewrite (set_present_map o _ _ _ Hnd G),
      (set_present_map o' _ _ _ Hnd' G').
    split; [now apply Permutation_map|].
    rewrite !filter_map_swap.
    assert (E : forall l : list (string * entry),
      filter (fun p => negb (JsObject.is_index
                (if String.eqb (fst p) (to_string (g y))
                 then (fst p, mkEntry (item e) 3) else p))) l
      = filter (fun p => negb (JsObject.is_index p)) l).
    { intros l. apply filter_ext. intros p. unfold JsObject.is_index.
      now destruct (String.eqb (fst p) (to_string (g y))). }
    now rewrite !E, Hf.
  - assert (G' : JsObject.get o' (to_string (g y)) = None)
      by now rewrite <- (get_perm o o' _ Hnd HP).
    split; [now apply set_nodup|].
    rewrite (set_absent _ _ _ G), (set_absent _ _ _ G').
    split; [now apply Permutation_app_tail|].
    rewrite !filter_app. now rewrite Hf.
Qed.

Lemma fold_process_b_same (g : keyfn) (b : list value)
    (o o' : JsObject.t entry) :
  NoDup (map fst o) -> Permutation o o' ->
  filter (fun p => negb (JsObject.is_index p)) o
  = filter (fun p => negb (JsObject.is_index p)) o' ->
  JsObject.for_in (fold_left (process_b g) b o)
  = JsObject.for_in (fold_left (process_b g) b o').
Proof.
  revert o o'. induction b as [|y b IH]; intros o o' Hnd HP Hf; simpl.
  - now apply for_in_canonical.
  - destruct (process_b_same g o o' y Hnd HP Hf) as [H1 [H2 H3]].
    now apply IH.
Qed.

(** Filling an empty histogram with the items of a consistent set gives
    the set's properties in enumeration order. *)
Lemma refill_hist (this : SetObj) :
  consistent this ->
  fold_left (process_a (Set_uid this)) (Set_items this) JsObject.create_null
  = JsObject.for_in (hist this).
Proof.
  intros [Hnd Hall].
  assert (Hfor : forall p, In p (JsObject.for_in (hist this)) ->
            fst p = key_of (Set_uid this) (item (snd p))
            /\ freq (snd p) = 1%Z).
  { intros p Hp. apply (proj1 (for_in_in _ _)) in Hp.
    now apply (proj1 (Forall_forall _ _) Hall). }
  rewrite process_a_fresh.
  - simpl app. rewrite Set_items_spec, map_map.
    rewrite (map_ext_in _ (fun p => p)); [apply map_id|].
    intros [k [it fr]] Hp. destruct (Hfor _ Hp) as [E1 E2].
    simpl in *. now subst.
  - simpl app. rewrite Set_items_spec, map_map.
    rewrite (map_ext_in _ fst).
    + now apply for_in_nodup.
    + intros p Hp. symmetry. now apply Hfor.
Qed.

(** The table of a prototype operation enumerates like the set's own
    histogram with the operand merged in. *)
Lemma table_of_items (this : SetObj) (b : list value) :
  consistent this ->
  JsObject.for_in (process_hist (Set_uid this) (Set_items this) b)
  = JsObject.for_in (fold_left (process_b (Set_uid this)) b (hist this)).
Proof.
  intros Hc. unfold process_hist. rewrite (refill_hist this Hc).
  symmetry. destruct Hc as [Hnd _].
  apply fold_process_b_same; [exact Hnd|apply for_in_perm|].
  symmetry. apply filter_nonindex_for_in.
Qed.

(** X23: the prototype operations agree with the static ones: for a set
    built from the array [a], [set.union(b)], [set.intersection(b)],
    [set.difference(b)], [set.complement(b)] and [set.equals(b)] answer
    what [Set.union(a, b)] and the others answer under the set's key
    function (pushed with [Set.pushUid]); for a set without key function
    this needs the static key function to be the identity function. *)
Theorem prototype_agrees_with_static (st : UidState) (a b : list value)
    (h : option keyfn) (ev : Z -> bool) :
  (h = None -> uid st = identity) ->
  let this := new_Set (Some a) h in
  let st' := match h with
             | Some g => snd (Set_pushUid g st)
             | None => st
             end in
  fst (fst (this_process st this (Arr b) (Some ev)))
    = Set_process st' a b (Some ev)
  /\ fst (fst (proto_equals st this (Arr b))) = Set_equals st' a b.
Proof.
  intros Hid this st'.
  assert (Hh : hashFn this = h).
  { unfold this, new_Set. now rewrite Set_add_process_a. }
  assert (Hkey : active_key st this = Set_uid this /\ uid st' = Set_uid this).
  { unfold active_key, Set_uid, st'. rewrite Hh.
    destruct h as [g|]; [now split|]. now rewrite (Hid eq_refl). }
  destruct Hkey as [Hk1 Hk2].
  assert (Hfor :
    JsObject.for_in (process_hist (active_key st this) (Set_items this) b)
    = JsObject.for_in (process_hist (uid st') a b)).
  { assert (Hhist : hist this
              = fold_left (process_a (Set_uid this)) a JsObject.create_null).
    { assert (E : Set_uid this = Set_uid (new_Set None h))
        by (unfold Set_uid; now rewrite Hh).
      rewrite E. apply new_Set_hist. }
    rewrite Hk1, Hk2.
    rewrite (table_of_items this b (consistent_new _ _)), Hhist.
    reflexivity. }
  split.
  - rewrite this_process_result. simpl operand_items.
    unfold Set_process. now rewrite Hfor.
  - rewrite proto_equals_result. simpl operand_items.
    unfold Set_equals, Set_process, hist_of, equals_loop.
    now rewrite Hfor.
Qed.

(** The set of [3,1,1,"b"] and the array ["b",2,1], for intersection. *)
Lemma prototype_agrees_with_static_witness :
  fst (fst (proto_intersection uid_init
              (new_Set (Some [VNum 3; VNum 1; VNum 1; VStr "b"]) None)
              (Arr [VStr "b"; VNum 2; VNum 1])))
  = Set_intersection uid_init [VNum 3; VNum 1; VNum 1; VStr "b"]
      [VStr "b"; VNum 2; VNum 1].
Proof.
  apply (proj1 (prototype_agrees_with_static uid_init
                  [VNum 3; VNum 1; VNum 1; VStr "b"]
                  [VStr "b"; VNum 2; VNum 1] None ev_intersection
                  (fun _ => eq_refl))).
Defined.
